(** * Surface-code tutorial notebook: decoding harness and circuit builder

    A shallow embedding of [tutorials/3_testing_and_noise_models.ipynb]:
    the [full_loop] test harness, the [stabilize] /
    [get_stabilized_circ] circuit builders, the readout circuit and the
    noise sweep, together with the flip calculator and the benchmarking
    ratio the notebook calls into, which are written down from the
    specification because their code lives outside the notebook.

    Part I holds the definitions, Part II the properties. *)

From Stdlib Require Import QArith Qcanon.
From stdpp Require Import base option list gmap strings numbers pretty.

(** * Part I: definitions *)

(** ** Python-level effects: exceptions and mutable state *)

Module Py.

(** The exceptions the embedded code can raise.  [CircuitError] is the
    circuit library's own exception.  [Failure] stands for any other
    exception raised inside a collaborator (a decoder method, the
    simulator backend), carrying its message. *)
Inductive exn :=
| IndexError
| KeyError
| ValueError
| TypeError
| ZeroDivisionError
| CircuitError
| Failure (msg : string).

Inductive result (A : Type) :=
| Ok (a : A)
| Raise (e : exn).
Arguments Ok {A} a.
Arguments Raise {A} e.

(** Statements executed against a mutable state [St]; an exception stops
    the run and leaves the state as it was when raised. *)
Definition M (St A : Type) : Type := St → result A * St.

Definition ret {St A} (a : A) : M St A := λ s, (Ok a, s).

Definition raise {St A} (e : exn) : M St A := λ s, (Raise e, s).

Definition bind {St A B} (m : M St A) (k : A → M St B) : M St B :=
  λ s, match m s with
       | (Ok a, s') => k a s'
       | (Raise e, s') => (Raise e, s')
       end.

(** [for x in xs: body(x)] *)
Fixpoint for_ {St A} (xs : list A) (body : A → M St unit) : M St unit :=
  match xs with
  | [] => ret tt
  | x :: xs' => bind (body x) (λ _, for_ xs' body)
  end.

(** [range(n)] for a Python integer [n]: empty when [n <= 0]. *)
Definition range (n : Z) : list Z := Z.of_nat <$> seq 0 (Z.to_nat n).

(** The element [xs[i]] denotes, if any: a negative index counts from
    the end of the list. *)
Definition item {A} (xs : list A) (i : Z) : option A :=
  if bool_decide (0 ≤ i)%Z then xs !! Z.to_nat i
  else if bool_decide (- Z.of_nat (length xs) ≤ i)%Z
       then xs !! Z.to_nat (Z.of_nat (length xs) + i)
       else None.

(** [xs[i]] *)
Definition index {St A} (xs : list A) (i : Z) : M St A :=
  match item xs i with
  | Some x => ret x
  | None => raise IndexError
  end.

End Py.

Import Py.

Declare Scope py_scope.
Delimit Scope py_scope with py.
Notation "x <- m ;; k" := (bind m (λ x, k))
  (at level 100, m at next level, right associativity) : py_scope.
Notation "m ;; k" := (bind m (λ _, k))
  (at level 100, right associativity) : py_scope.
Open Scope py_scope.

(** ** The stabilizer circuit of the notebook *)

Module Circuit.

(** [QuantumRegister(size, name=...)] *)
Record qreg := QuantumRegister { qreg_size : nat; qreg_name : string }.

#[global] Instance qreg_eq_dec : EqDecision qreg.
Proof. solve_decision. Defined.

(** The quantum registers the notebook declares. *)
Definition data : qreg := QuantumRegister 9 "data".
Definition mx : qreg := QuantumRegister 4 "mx".
Definition mz : qreg := QuantumRegister 4 "mz".
Definition logical : qreg := QuantumRegister 1 "logical".

(** [q[j]], for an index the register has. *)
Definition qubit : Type := qreg * nat.

(** [ClassicalRegister(size, name=...)] *)
Record creg := ClassicalRegister { creg_size : nat; creg_name : string }.

#[global] Instance creg_eq_dec : EqDecision creg.
Proof. solve_decision. Defined.

Definition clbit : Type := creg * nat.

(** A whole register passed as an argument stands for its bits, in
    order; [c[lo:hi]] is a slice of a classical register, cut short
    where the register ends, and all of it for [lo = 0] and [hi] its
    size. *)
Definition qubits (q : qreg) : list qubit := (λ j, (q, j)) <$> seq 0 (qreg_size q).

Definition slice (c : creg) (lo hi : nat) : list clbit :=
  (λ j, (c, j)) <$> seq lo (hi `min` creg_size c - lo).

(** The entries of a circuit's instruction list.  A measurement or a
    reset of a whole register is stored bit by bit; a barrier without
    arguments spans all qubits and is one entry. *)
Inductive instr :=
| h (q : qubit)
| cx (control target : qubit)
| barrier
| measure (q : qubit) (c : clbit)
| reset (q : qubit).

(** A circuit object: its registers and its instruction list. *)
Record QuantumCircuit := mkCircuit {
  qregs : list qreg;
  cregs : list creg;
  qc_data : list instr
}.

Definition extend (c : QuantumCircuit) (ins : list instr) : QuantumCircuit :=
  {| qregs := qregs c; cregs := cregs c; qc_data := qc_data c ++ ins |}.

(** The library's check of an instruction before it is stored: its
    qubits and clbits belong to registers of the circuit, and a
    two-qubit gate acts on two different qubits. *)
Definition has_qubit (c : QuantumCircuit) (q : qubit) : bool :=
  bool_decide (q.1 ∈ qregs c).

Definition has_clbit (c : QuantumCircuit) (b : clbit) : bool :=
  bool_decide (b.1 ∈ cregs c).

Definition valid (c : QuantumCircuit) (i : instr) : bool :=
  match i with
  | h q => has_qubit c q
  | cx a b => bool_decide (a ≠ b) && has_qubit c a && has_qubit c b
  | barrier => true
  | measure q b => has_qubit c q && has_clbit c b
  | reset q => has_qubit c q
  end.

(** Circuits are mutable objects: a heap of circuits addressed by
    reference. *)
Definition ref := positive.
Abbreviation heap := (gmap ref QuantumCircuit).

(** A method call through a reference that denotes no object; Python
    never produces one, the case only makes the functions total. *)
Definition dangling : exn := Failure "dangling reference".

(** [circ.copy()]: a new object with the same registers and a copy of
    the instruction list. *)
Definition copy (circ : ref) : M heap ref :=
  λ σ, match σ !! circ with
       | Some c => let r := fresh (dom σ) in (Ok r, <[r := c]> σ)
       | None => (Raise dangling, σ)
       end.

(** [circ.h(q)], [circ.cx(a, b)] on single qubits and [circ.barrier()]:
    one instruction, stored when it passes the library's check;
    [CircuitError] otherwise. *)
Definition append (circ : ref) (i : instr) : M heap unit :=
  λ σ, match σ !! circ with
       | Some c =>
           if valid c i
           then (Ok tt, <[circ := extend c [i]]> σ)
           else (Raise CircuitError, σ)
       | None => (Raise dangling, σ)
       end.

(** A method called on whole registers expands to one instruction per
    bit; they are checked and stored one after the other. *)
Definition store (circ : ref) (ins : list instr) : M heap unit :=
  for_ ins (append circ).

(** How [circ.measure(qs, cs)] pairs its arguments: bit by bit when
    there are as many clbits as qubits, one qubit into each clbit when
    there is a single qubit, and [CircuitError] otherwise. *)
Definition broadcast_measure (qs : list qubit) (cs : list clbit)
    : option (list instr) :=
  if bool_decide (length cs = length qs) then Some (zip_with measure qs cs)
  else match qs, cs with
       | [q], _ :: _ => Some (measure q <$> cs)
       | _, _ => None
       end.

(** [circ.measure(q, c[lo:hi])] for a quantum register [q] and a slice
    of the classical register [c]. *)
Definition measure_register (circ : ref) (q : qreg) (c : creg) (lo hi : nat)
    : M heap unit :=
  match broadcast_measure (qubits q) (slice c lo hi) with
  | Some ins => store circ ins
  | None => raise CircuitError
  end.

(** [circ.reset(q)] for a quantum register: one reset per qubit. *)
Definition reset_register (circ : ref) (q : qreg) : M heap unit :=
  store circ (reset <$> qubits q).

(** [circ.add_register(c)] for a classical register: the library
    refuses a name the circuit already uses. *)
Definition register_names (c : QuantumCircuit) : list string :=
  (qreg_name <$> qregs c) ++ (creg_name <$> cregs c).

Definition add_register (circ : ref) (c : creg) : M heap unit :=
  λ σ, match σ !! circ with
       | Some qc =>
           if bool_decide (creg_name c ∈ register_names qc)
           then (Raise CircuitError, σ)
           else (Ok tt,
                 <[circ := {| qregs := qregs qc; cregs := cregs qc ++ [c];
                              qc_data := qc_data qc |}]> σ)
       | None => (Raise dangling, σ)
       end.

(** A statement confined to the circuit [circ]: it touches no other
    object, keeps [circ]'s registers, only adds to its instruction
    list, and raises nothing but [IndexError] and [CircuitError]. *)
Definition confined {A} (circ : ref) (m : M heap A) : Prop :=
  ∀ c (σ : heap), ∃ r c',
    m (<[circ := c]> σ) = (r, <[circ := c']> σ) ∧
    qregs c' = qregs c ∧ cregs c' = cregs c ∧
    qc_data c `prefix_of` qc_data c' ∧
    (∀ e, r = Raise e → e = IndexError ∨ e = CircuitError).

Section Notebook.

(** The global list [measurements] the notebook builds next to the
    registers; [stabilize] reads it. *)
Variable measurements : list creg.

Definition stabilize (circ : ref) (i : Z) : M heap unit :=
  (* Top left *)
  append circ (h (mx, 0)) ;;
  append circ (cx (mx, 0) (data, 1)) ;;
  append circ (cx (mx, 0) (data, 0)) ;;
  append circ (cx (data, 1) (mz, 0)) ;;
  append circ (cx (data, 0) (mz, 0)) ;;
  append circ (cx (data, 4) (mz, 0)) ;;
  append circ (cx (data, 3) (mz, 0)) ;;
  append circ (h (mx, 0)) ;;
  (* Top right *)
  append circ (h (mx, 1)) ;;
  append circ (cx (mx, 1) (data, 2)) ;;
  append circ (cx (mx, 1) (data, 1)) ;;
  append circ (cx (mx, 1) (data, 5)) ;;
  append circ (cx (mx, 1) (data, 4)) ;;
  append circ (cx (data, 2) (mz, 1)) ;;
  append circ (cx (data, 5) (mz, 1)) ;;
  append circ (h (mx, 1)) ;;
  (* Bottom left *)
  append circ (h (mx, 2)) ;;
  append circ (cx (data, 3) (mz, 2)) ;;
  append circ (cx (data, 6) (mz, 2)) ;;
  append circ (cx (mx, 2) (data, 4)) ;;
  append circ (cx (mx, 2) (data, 3)) ;;
  append circ (cx (mx, 2) (data, 7)) ;;
  append circ (cx (mx, 2) (data, 6)) ;;
  append circ (h (mx, 2)) ;;
  (* Bottom right *)
  append circ (h (mx, 3)) ;;
  append circ (cx (mx, 3) (data, 8)) ;;
  append circ (cx (mx, 3) (data, 7)) ;;
  append circ (cx (data, 5) (mz, 3)) ;;
  append circ (cx (data, 4) (mz, 3)) ;;
  append circ (cx (data, 8) (mz, 3)) ;;
  append circ (cx (data, 7) (mz, 3)) ;;
  append circ (h (mx, 3)) ;;
  append circ barrier ;;
  c <- index measurements i ;;
  measure_register circ mz c 0 4 ;;
  c <- index measurements i ;;
  measure_register circ mx c 4 8 ;;
  reset_register circ mz ;;
  reset_register circ mx ;;
  append circ barrier.

Definition get_stabilized_circ (base_circuit : ref) (rounds : Z) : M heap ref :=
  circ <- copy base_circuit ;;
  for_ (range (rounds + 1)) (λ i, stabilize circ i) ;;
  ret circ.

(** The instructions one call of [stabilize] stores before it reads
    [measurements], and those of a whole round measured into the
    register [c]. *)
Definition stabilizer_gates : list instr :=
  [ h (mx, 0); cx (mx, 0) (data, 1); cx (mx, 0) (data, 0);
    cx (data, 1) (mz, 0); cx (data, 0) (mz, 0); cx (data, 4) (mz, 0);
    cx (data, 3) (mz, 0); h (mx, 0);
    h (mx, 1); cx (mx, 1) (data, 2); cx (mx, 1) (data, 1);
    cx (mx, 1) (data, 5); cx (mx, 1) (data, 4); cx (data, 2) (mz, 1);
    cx (data, 5) (mz, 1); h (mx, 1);
    h (mx, 2); cx (data, 3) (mz, 2); cx (data, 6) (mz, 2);
    cx (mx, 2) (data, 4); cx (mx, 2) (data, 3); cx (mx, 2) (data, 7);
    cx (mx, 2) (data, 6); h (mx, 2);
    h (mx, 3); cx (mx, 3) (data, 8); cx (mx, 3) (data, 7);
    cx (data, 5) (mz, 3); cx (data, 4) (mz, 3); cx (data, 8) (mz, 3);
    cx (data, 7) (mz, 3); h (mx, 3);
    barrier ].

Definition round_instrs (c : creg) : list instr :=
  stabilizer_gates ++
  zip_with measure (qubits mz) (slice c 0 4) ++
  zip_with measure (qubits mx) (slice c 4 8) ++
  (reset <$> qubits mz) ++ (reset <$> qubits mx) ++ [barrier].

(** What [stabilize] needs of the circuit it is called on: the three
    registers its gates act on, and, of a measurement register, that
    the circuit holds it and that it has the eight bits the two slices
    take. *)
Definition has_stabilizer_registers (c : QuantumCircuit) : Prop :=
  data ∈ qregs c ∧ mx ∈ qregs c ∧ mz ∈ qregs c.

Definition fits (c : QuantumCircuit) (m : creg) : Prop :=
  m ∈ cregs c ∧ 8 ≤ creg_size m.

End Notebook.

(** The notebook's globals: [rounds = 2], one 8-bit classical register
    per round ([c1], [c2], [c3]), and the empty circuit over all
    registers. *)
Definition rounds : Z := 2.

Definition measurements : list creg :=
  (λ i, ClassicalRegister 8 ("c" +:+ pretty (i + 1)%Z)) <$> range (rounds + 1).

Definition base_circ : QuantumCircuit :=
  {| qregs := [data; mz; mx; logical]; cregs := measurements; qc_data := [] |}.

(** The notebook's heap when it calls [get_stabilized_circ]: [base_circ]
    is the only circuit. *)
Definition notebook_heap : heap := {[ 1%positive := base_circ ]}.

End Circuit.

(** ** The decoding harness [full_loop] *)

Module Decoder.

(** Which of the two decoder arguments of [full_loop] a call goes to. *)
Inductive mode := analytic | simulated.

(** The decoder methods the loops of [full_loop] call. *)
Inductive call :=
| CMakeErrorGraph
| CMatchingGraph
| CMatching
| CAnalyticPaths
| CCalculateQubitFlips.

(** The two list objects [X_errors] and [Z_errors]: both loops iterate
    over the same two objects. *)
Inductive listref := X_errors | Z_errors.

(** What the code of a collaborator runs on: the collaborators' own
    state, and the contents of the two defect lists.  A list is a
    mutable object, and code that holds a reference to it can change it
    at any later time. *)
Definition Env (W node : Type) : Type := W * (list node * list node).

(** The list a reference denotes in a collaborator's view. *)
Definition listed {W node} (l : listref) (env : Env W node) : list node :=
  match l with
  | X_errors => env.2.1
  | Z_errors => env.2.2
  end.

(** Python's iteration protocol on an object a decoder returned, as a
    tuple assignment uses it: the items the assignment draws from the
    object (it stops after the third).  It raises [TypeError] on an
    object that is not iterable; on a tuple it gives the components and
    does nothing else. *)
Class Iterable (W node Obj : Type) :=
  iterate : Obj → M (Env W node) (list Obj).

Section Harness.

(** The values that flow through the harness are left to the decoder:
    defect nodes, matching graphs, matchings, flip values and the
    merged correction.  [Obj] are the objects that [make_error_graph]
    and [analytic_paths] return: the first loop takes such an object
    apart, so error graphs and chains have one type.  Flip maps are
    dictionaries keyed by physical qubit, since the harness itself
    writes the empty dictionary.  [W] is whatever state the
    collaborators keep between calls. *)
Context {node MGraph Matches qubit flip Net Noise W Obj : Type}.
Context `{Countable qubit}.
Context `{!Iterable W node Obj}.

(** A [GraphDecoder] object as the harness sees it.  Each method may
    raise, may change the collaborators' state, and may change the
    lists it can reach.  [make_error_graph] is handed the list object
    [errors] itself. *)
Record GraphDecoder := {
  make_error_graph : listref → string → M (Env W node) Obj;
  matching_graph : Obj → string → M (Env W node) MGraph;
  matching : MGraph → string → M (Env W node) Matches;
  analytic_paths : Matches → string → M (Env W node) Obj;
  calculate_qubit_flips : Matches → Obj → string → M (Env W node) (gmap qubit flip);
  net_qubit_flips : gmap qubit flip → gmap qubit flip → M (Env W node) Net
}.

(** The log of decoder calls made during one run: a method called for an
    error key, or [net_qubit_flips] called with [flips["X"]] and
    [flips["Z"]] read from the dictionary [flips].  A flip map a method
    returned is logged as the value it had when returned. *)
Inductive event :=
| Call (d : mode) (c : call) (error_key : string)
| NetCall (d : mode) (flips : gmap string (gmap qubit flip)).

(** The state of a run: the collaborators' state, the contents of the
    two defect lists, which of the two lists have been handed to a
    collaborator (X first), and the log. *)
Record St := mkSt {
  world : W;
  defects : list node * list node;
  handed : bool * bool;
  trace : list event
}.

(** What collaborator code sees of a state: the lists it was handed; it
    has no way to reach the other ones, which show as empty. *)
Definition expose (s : St) : Env W node :=
  (world s,
   (if (handed s).1 then (defects s).1 else [],
    if (handed s).2 then (defects s).2 else [])).

(** The state after collaborator code has run and left [env], with the
    log [tr]: the lists it was not handed are as they were. *)
Definition absorb (s : St) (env : Env W node) (tr : list event) : St :=
  {| world := env.1;
     defects := (if (handed s).1 then env.2.1 else (defects s).1,
                 if (handed s).2 then env.2.2 else (defects s).2);
     handed := handed s;
     trace := tr |}.

(** The sample: a collaborator call made before the lists exist. *)
Definition lift {A} (f : M W A) : M St A :=
  λ s, let '(r, w) := f (world s) in
       (r, {| world := w; defects := defects s; handed := handed s;
              trace := trace s |}).

(** Collaborator code that is not a decoder method. *)
Definition external {A} (f : M (Env W node) A) : M St A :=
  λ s, let '(r, env) := f (expose s) in (r, absorb s env (trace s)).

(** A decoder call, logged whether or not it raises. *)
Definition invoke {A} (e : event) (f : M (Env W node) A) : M St A :=
  λ s, let '(r, env) := f (expose s) in (r, absorb s env (trace s ++ [e])).

(** [X_errors, Z_errors = ...]: two new list objects, which no
    collaborator called later holds. *)
Definition new_lists (xz : list node * list node) : M St unit :=
  λ s, (Ok tt,
        {| world := world s; defects := xz; handed := (false, false);
           trace := trace s |}).

(** Passing a list object as an argument: from then on the
    collaborators can reach it. *)
Definition hand (l : listref) : M St unit :=
  λ s, (Ok tt,
        {| world := world s; defects := defects s;
           handed := match l with
                     | X_errors => (true, (handed s).2)
                     | Z_errors => ((handed s).1, true)
                     end;
           trace := trace s |}).

(** Reading the contents of a list object. *)
Definition deref (l : listref) : M St (list node) :=
  λ s, (Ok match l with X_errors => (defects s).1 | Z_errors => (defects s).2 end, s).

(** [a, b = v]: [ValueError] unless [v] yields exactly two items. *)
Definition unpack2 (v : Obj) : M St (Obj * Obj) :=
  items <- external (iterate v) ;;
  match items with
  | [a; b] => ret (a, b)
  | _ => raise ValueError
  end.

(** [d[k]] *)
Definition getitem {V} (d : gmap string V) (k : string) : M St V :=
  match d !! k with
  | Some v => ret v
  | None => raise KeyError
  end.

(** [make_error_graph(errors, error_key)] on the list object [errors]. *)
Definition call_make_error_graph (d : mode) (dec : GraphDecoder)
    (errors : listref) (error_key : string) : M St Obj :=
  hand errors ;;
  invoke (Call d CMakeErrorGraph error_key) (make_error_graph dec errors error_key).

(** [if errors:] on a list: true when it is not empty. *)
Definition truthy (errors : listref) : M St bool :=
  es <- deref errors ;;
  ret (bool_decide (es ≠ [])).

(** The body of the first loop: the value it stores under
    [flips[error_key]]. *)
Definition analytic_body (decoder_analytic : GraphDecoder)
    (error_key : string) (errors : listref) : M St (gmap qubit flip) :=
  b <- truthy errors ;;
  if b : bool then
    r <- call_make_error_graph analytic decoder_analytic errors error_key ;;
    gp <- unpack2 r ;;
    matching_graph <- invoke (Call analytic CMatchingGraph error_key)
           (matching_graph decoder_analytic gp.1 error_key) ;;
    matches <- invoke (Call analytic CMatching error_key)
           (matching decoder_analytic matching_graph error_key) ;;
    invoke (Call analytic CCalculateQubitFlips error_key)
           (calculate_qubit_flips decoder_analytic matches gp.2 error_key)
  else
    ret ∅.

(** The body of the second loop. *)
Definition simulated_body (decoder_simulated : GraphDecoder)
    (error_key : string) (errors : listref) : M St (gmap qubit flip) :=
  b <- truthy errors ;;
  if b : bool then
    error_graph <- call_make_error_graph simulated decoder_simulated errors error_key ;;
    matching_graph <- invoke (Call simulated CMatchingGraph error_key)
           (matching_graph decoder_simulated error_graph error_key) ;;
    matches <- invoke (Call simulated CMatching error_key)
           (matching decoder_simulated matching_graph error_key) ;;
    paths <- invoke (Call simulated CAnalyticPaths error_key)
           (analytic_paths decoder_simulated matches error_key) ;;
    invoke (Call simulated CCalculateQubitFlips error_key)
           (calculate_qubit_flips decoder_simulated matches paths error_key)
  else
    ret ∅.

(** [for error_key, errors in items: flips[error_key] = body(error_key,
    errors)], started from the dictionary [flips]. *)
Fixpoint decode_items (body : string → listref → M St (gmap qubit flip))
    (items : list (string * listref)) (flips : gmap string (gmap qubit flip))
    : M St (gmap string (gmap qubit flip)) :=
  match items with
  | [] => ret flips
  | (error_key, errors) :: rest =>
      f <- body error_key errors ;;
      decode_items body rest (<[error_key := f]> flips)
  end.

(** [dict(zip(("X", "Z"), (X_errors, Z_errors))).items()]: the keys are
    distinct, so the dictionary lists them in this order. *)
Definition error_items : list (string * listref) :=
  zip ["X"; "Z"] [X_errors; Z_errors].

(** One decoder pass: [flips = {}], the loop, then
    [net_qubit_flips(flips["X"], flips["Z"])], whose result is printed. *)
Definition decoder_pass (d : mode) (dec : GraphDecoder)
    (body : string → listref → M St (gmap qubit flip)) : M St Net :=
  flips <- decode_items body error_items ∅ ;;
  fx <- getitem flips "X" ;;
  fz <- getitem flips "Z" ;;
  invoke (NetCall d flips) (net_qubit_flips dec fx fz).

(** [full_loop].  [sample noise_model] is the first two statements: one
    shot of [code.circuit['0']] on the simulator, processed and split
    into the X and Z defect lists.  The two printed decoder results are
    the value of the run. *)
Definition full_loop (sample : option Noise → M W (list node * list node))
    (decoder_simulated decoder_analytic : GraphDecoder)
    (noise_model : option Noise) : M St (Net * Net) :=
  xz <- lift (sample noise_model) ;;
  new_lists xz ;;
  (* Analytic Decoder *)
  a <- decoder_pass analytic decoder_analytic (analytic_body decoder_analytic) ;;
  (* Simulated Decoder *)
  s <- decoder_pass simulated decoder_simulated (simulated_body decoder_simulated) ;;
  ret (a, s).

(** A run starts with nothing logged. *)
Definition initial (w : W) : St :=
  {| world := w; defects := ([], []); handed := (false, false); trace := [] |}.

(** The state in which the first loop starts, after a sample with the
    defects [X] and [Z]. *)
Definition sampled (w : W) (X Z : list node) : St :=
  {| world := w; defects := (X, Z); handed := (false, false); trace := [] |}.

(** *** Properties of logged events *)


(** Nothing was done for [error_key]: no decoder method was called for
    it, and [net_qubit_flips] found the empty dictionary under it. *)
Definition quiet (error_key : string) (e : event) : Prop :=
  match e with
  | Call _ _ k => k ≠ error_key
  | NetCall _ flips => flips !! error_key = Some ∅
  end.

(** A decoder whose [net_qubit_flips] merges two empty flip maps into
    the empty correction. *)
Definition merges_empty `{Empty Net} (dec : GraphDecoder) : Prop :=
  ∀ env, (net_qubit_flips dec ∅ ∅ env).1 = Ok ∅.

(** *** Invariants of a run *)

(** An invariant of the run state kept by a statement, whether it
    returns or raises. *)
Definition preserves {A} (J : St → Prop) (m : M St A) : Prop :=
  ∀ s, J s → J (m s).2.

(** What a loop body run for [error_key] on the list [l] may do to the
    state: hand out that list, run collaborator code, and log calls for
    that key. *)
Definition stable_for (J : St → Prop) (d : mode) (error_key : string)
    (l : listref) : Prop :=
  (∀ c s env, J s → J (absorb s env (trace s ++ [Call d c error_key]))) ∧
  (∀ s env, J s → J (absorb s env (trace s))) ∧
  (∀ s, J s → J (hand l s).2).

(** What the two loop bodies have in common. *)
Definition loop_body (d : mode)
    (body : string → listref → M St (gmap qubit flip)) : Prop :=
  (∀ J error_key l, stable_for J d error_key l → preserves J (body error_key l)) ∧
  (∀ error_key l s, (deref l s).1 = Ok [] → body error_key l s = (Ok ∅, s)).

End Harness.

End Decoder.

(** ** The flip calculator *)

Module FlipCalculator.

(** The correction a merged map assigns to a qubit. *)
Inductive pauli := PauliX | PauliY | PauliZ.

Section Flips.

Context {node qubit : Type} `{Countable node} `{Countable qubit}.

(** Modelled from the spec: the qubit flip map of section 3, "mapping
    from physical-qubit identifier to a parity bit (1 = apply
    correction)", whose code is not in the notebook; XOR-ing one qubit
    into it. *)
Definition toggle (m : gmap qubit bool) (q : qubit) : gmap qubit bool :=
  <[q := negb (default false (m !! q))]> m.

(** The parity bit of a qubit; a qubit the map does not mention carries
    no flip. *)
Definition flipped (m : gmap qubit bool) (q : qubit) : bool :=
  default false (m !! q).

(** XOR-ing the qubits of one chain into a flip map. *)
Definition apply_chain (m : gmap qubit bool) (chain : list qubit) : gmap qubit bool :=
  foldl toggle m chain.

(** Modelled from the spec: [GraphDecoder.calculate_qubit_flips], whose
    code is not in the notebook.  Section 4.5: "Input: matches and
    chains for one error type.  Output: a qubit flip map for that error
    type.  Contract: XOR-accumulate chain qubits across all matched
    pairs".  The chain of a matched pair is looked up in [paths]. *)
Fixpoint accumulate (matches : list (node * node))
    (paths : gmap (node * node) (list qubit)) (m : gmap qubit bool)
    : result (gmap qubit bool) :=
  match matches with
  | [] => Ok m
  | match_ :: rest =>
      match paths !! match_ with
      | Some chain => accumulate rest paths (apply_chain m chain)
      | None => Raise KeyError
      end
  end.

Definition calculate_qubit_flips (matches : list (node * node))
    (paths : gmap (node * node) (list qubit)) (error_key : string)
    : result (gmap qubit bool) :=
  accumulate matches paths ∅.

(** How many times the chains touch a qubit. *)
Definition touches (q : qubit) (chains : list (list qubit)) : nat :=
  length (filter (λ x, x = q) (concat chains)).

(** Modelled from the spec: [GraphDecoder.net_qubit_flips], whose code is
    not in the notebook.  Section 4.5: "merging X and Z maps treats a
    qubit flipped by both as a distinct combined-error correction rather
    than two independent flips". *)
Definition combine (x z : option bool) : option pauli :=
  match default false x, default false z with
  | true, true => Some PauliY
  | true, false => Some PauliX
  | false, true => Some PauliZ
  | false, false => None
  end.

Definition net_qubit_flips (flips_x flips_z : gmap qubit bool) : gmap qubit pauli :=
  merge combine flips_x flips_z.

End Flips.

End FlipCalculator.

(** ** The benchmarking ratio *)

Module Benchmarking.

Section Tool.

(** The decoding pipeline run on one outcome string (extraction, graph,
    matching, flips, and the correction applied to the raw logical
    readout bit), giving the corrected logical value; it fails on a
    malformed outcome. *)
Variable corrected_value : string → result Z.

(** Modelled from the spec: [SurfaceCodeBenchmarkingTool.logical_error_rate],
    whose code is not in the notebook.  Section 4.6: "for each distinct
    outcome string, run the full pipeline once, apply the resulting
    correction to the raw logical-qubit readout bit, and compare to the
    expected value; accumulate counts of mismatches weighted by each
    outcome's occurrence count; divide by total shots".  The histogram is
    the dictionary's items in order; a failing sample aborts the batch
    (section 7).  [tally] carries the mismatches and the shots so far.
    The quotient of the two integers is kept as an exact rational in
    lowest terms. *)
Fixpoint tally (readout_strings : list (string * N)) (expected : Z)
    (errors shots : N) : result (N * N) :=
  match readout_strings with
  | [] => Ok (errors, shots)
  | (readout, count) :: rest =>
      match corrected_value readout with
      | Ok v =>
          tally rest expected
            (if bool_decide (v = expected) then errors else errors + count)%N
            (shots + count)%N
      | Raise e => Raise e
      end
  end.

Definition logical_error_rate (readout_strings : list (string * N)) (expected : Z)
    : result Qc :=
  match tally readout_strings expected 0 0 with
  | Ok (errors, Npos shots) => Ok (Q2Qc (Qmake (Z.of_N errors) shots))
  | Ok (_, N0) => Raise ZeroDivisionError
  | Raise e => Raise e
  end.

(** Multiplying every occurrence count by [k]. *)
Definition scale (k : positive) (readout_strings : list (string * N))
    : list (string * N) :=
  (λ rc, (rc.1, (Npos k * rc.2)%N)) <$> readout_strings.

End Tool.

End Benchmarking.

(** ** A stand-in decoder *)

(** A decoder on a line of qubits, to run the harness on concrete
    inputs: defects are positions, consecutive defects are matched, and
    the chain between two positions is the qubits between them.  Its
    flip calculator and merge are the ones modelled above. *)
Module Toy.

Import Decoder.

Fixpoint pairs_of (nodes : list nat) : list (nat * nat) :=
  match nodes with
  | u :: v :: rest => (u, v) :: pairs_of rest
  | _ => []
  end.

Definition chain (u v : nat) : list nat := seq (u `min` v) ((u `max` v) - (u `min` v)).

Definition chains (matches : list (nat * nat)) : gmap (nat * nat) (list nat) :=
  list_to_map ((λ m, (m, chain m.1 m.2)) <$> matches).

(** The objects the stand-in decoder returns: an error graph, which
    iterates over its nodes as a graph of the graph library does; a
    node; a table of chains; and a 2-tuple. *)
Inductive obj :=
| Graph (nodes : list nat)
| Node (n : nat)
| Chains (paths : gmap (nat * nat) (list nat))
| Pair (first second : obj).

#[global] Instance obj_iterable : Iterable unit nat obj :=
  λ o, match o with
       | Graph nodes => ret (Node <$> nodes)
       | Pair a b => ret [a; b]
       | Node _ => raise TypeError
       | Chains _ => raise TypeError
       end.

Definition decoder (simulation : bool)
    : GraphDecoder (node:=nat) (MGraph:=list nat) (Matches:=list (nat * nat))
        (qubit:=nat) (flip:=bool) (Net:=gmap nat FlipCalculator.pauli)
        (W:=unit) (Obj:=obj) :=
  {| make_error_graph errors error_key :=
       λ env, let nodes := listed errors env in
              (Ok (if simulation then Graph nodes
                   else Pair (Graph nodes) (Chains (chains (pairs_of nodes)))),
               env);
     matching_graph error_graph error_key :=
       match error_graph with
       | Graph nodes => ret nodes
       | _ => raise TypeError
       end;
     matching g error_key := ret (pairs_of g);
     analytic_paths matches error_key := ret (Chains (chains matches));
     calculate_qubit_flips matches paths error_key :=
       match paths with
       | Chains paths =>
           λ env, (FlipCalculator.calculate_qubit_flips matches paths error_key, env)
       | _ => raise TypeError
       end;
     net_qubit_flips fx fz := ret (FlipCalculator.net_qubit_flips fx fz) |}.

(** A sample with the given defects. *)
Definition sample (X Z : list nat) : option unit → M unit (list nat * list nat) :=
  λ _, ret (X, Z).

(** A pipeline for the benchmarking ratio: the outcome's first character
    is its corrected logical value. *)
Definition first_bit (readout : string) : result Z :=
  if String.prefix "0" readout then Ok 0%Z
  else if String.prefix "1" readout then Ok 1%Z
  else Raise ValueError.

End Toy.

(** A decoder that answers every call with an empty value; its
    [make_error_graph] returns a 2-tuple, or a single value that is not
    iterable, as asked. *)
Module Stub.

Import Decoder.

Definition decoder (pair : bool)
    : GraphDecoder (node:=nat) (MGraph:=unit) (Matches:=unit)
        (qubit:=nat) (flip:=bool) (Net:=unit) (W:=unit) (Obj:=Toy.obj) :=
  {| make_error_graph errors error_key :=
       ret (if pair then Toy.Pair (Toy.Graph []) (Toy.Chains ∅) else Toy.Node 0);
     matching_graph error_graph error_key := ret ();
     matching g error_key := ret ();
     analytic_paths matches error_key := ret (Toy.Chains ∅);
     calculate_qubit_flips matches paths error_key := ret ∅;
     net_qubit_flips fx fz := ret () |}.

(** The same decoder, keeping the lists it was handed and emptying them
    when its [matching_graph] is called. *)
Definition clearing
    : GraphDecoder (node:=nat) (MGraph:=unit) (Matches:=unit)
        (qubit:=nat) (flip:=bool) (Net:=unit) (W:=unit) (Obj:=Toy.obj) :=
  {| make_error_graph errors error_key :=
       ret (Toy.Pair (Toy.Graph []) (Toy.Chains ∅));
     matching_graph error_graph error_key := λ env, (Ok (), (env.1, ([], [])));
     matching g error_key := ret ();
     analytic_paths matches error_key := ret (Toy.Chains ∅);
     calculate_qubit_flips matches paths error_key := ret ∅;
     net_qubit_flips fx fz := ret () |}.

Definition sample (X Z : list nat) : option unit → M unit (list nat * list nat) :=
  λ _, ret (X, Z).

End Stub.

(** ** The call protocol of [full_loop] *)

Module Protocol.

Import Decoder.

Section Protocol.

Context {node MGraph Matches qubit flip Net W Obj : Type}.
Context `{Countable qubit}.
Context `{!Iterable W node Obj}.

Abbreviation event := (event (qubit:=qubit) (flip:=flip)).
Abbreviation St := (St (node:=node) (qubit:=qubit) (flip:=flip) (W:=W)).
Abbreviation GraphDecoder :=
  (GraphDecoder (node:=node) (MGraph:=MGraph) (Matches:=Matches)
     (qubit:=qubit) (flip:=flip) (Net:=Net) (W:=W) (Obj:=Obj)).

(** The calls a loop body makes, in order, when the defect list of
    [error_key] is not empty: the first loop goes from the error graph
    to the flips, the second asks for the chains in between. *)
Definition script (d : mode) (error_key : string) : list event :=
  match d with
  | analytic =>
      [ Call analytic CMakeErrorGraph error_key;
        Call analytic CMatchingGraph error_key;
        Call analytic CMatching error_key;
        Call analytic CCalculateQubitFlips error_key ]
  | simulated =>
      [ Call simulated CMakeErrorGraph error_key;
        Call simulated CMatchingGraph error_key;
        Call simulated CMatching error_key;
        Call simulated CAnalyticPaths error_key;
        Call simulated CCalculateQubitFlips error_key ]
  end.

(** The calls of a loop body: the script when it decodes, nothing when
    the list is empty. *)
Definition block (d : mode) (error_key : string) (decode : bool) : list event :=
  if decode then script d error_key else [].

(** The log of a complete pass. *)
Definition pass_log (d : mode) (decode_x decode_z : bool)
    (flips : gmap string (gmap qubit flip)) : list event :=
  block d "X" decode_x ++ block d "Z" decode_z ++ [NetCall d flips].

(** The decoder a logged call went to. *)
Definition decoder_of (e : event) : mode :=
  match e with
  | Call d _ _ => d
  | NetCall d _ => d
  end.

(** The contents of a list object, and whether a loop body started in
    the state [s] decodes it: the list is not empty. *)
Definition contents (l : listref) (s : St) : list node :=
  match l with
  | X_errors => (defects s).1
  | Z_errors => (defects s).2
  end.

Definition decodes (l : listref) (s : St) : bool :=
  bool_decide (contents l s ≠ []).


(** A decoder none of whose methods raises. *)
Definition never_raises (dec : GraphDecoder) : Prop :=
  (∀ l k env, ∃ v env', make_error_graph dec l k env = (Ok v, env')) ∧
  (∀ g k env, ∃ v env', matching_graph dec g k env = (Ok v, env')) ∧
  (∀ g k env, ∃ v env', matching dec g k env = (Ok v, env')) ∧
  (∀ m k env, ∃ v env', analytic_paths dec m k env = (Ok v, env')) ∧
  (∀ m p k env, ∃ v env', calculate_qubit_flips dec m p k env = (Ok v, env')) ∧
  (∀ fx fz env, ∃ v env', net_qubit_flips dec fx fz env = (Ok v, env')).

(** A decoder whose [make_error_graph] returns, whenever it returns, an
    object that unpacks into two items, as a 2-tuple does. *)
Definition returns_pair (dec : GraphDecoder) : Prop :=
  ∀ l k env v env',
    make_error_graph dec l k env = (Ok v, env') →
    ∀ env1, ∃ a b env2, iterate v env1 = (Ok [a; b], env2).


(** Collaborators that leave the defect lists as they are: the methods
    of a decoder, and the iteration of the objects it returns. *)
Definition keeps_lists (dec : GraphDecoder) : Prop :=
  (∀ l k env, (make_error_graph dec l k env).2.2 = env.2) ∧
  (∀ g k env, (matching_graph dec g k env).2.2 = env.2) ∧
  (∀ g k env, (matching dec g k env).2.2 = env.2) ∧
  (∀ m k env, (analytic_paths dec m k env).2.2 = env.2) ∧
  (∀ m p k env, (calculate_qubit_flips dec m p k env).2.2 = env.2) ∧
  (∀ fx fz env, (net_qubit_flips dec fx fz env).2.2 = env.2).

Definition iteration_keeps_lists : Prop :=
  ∀ (v : Obj) (env : Env W node), (iterate v env).2.2 = env.2.


(** What one run of a loop body leaves in the log: the calls of its
    script, cut short where one raised. *)
Definition body_outcome (d : mode) (error_key : string)
    (l : listref) (s : St) (r : result (gmap qubit flip)) (s' : St) : Prop :=
  ∃ evs,
    trace s' = trace s ++ evs ∧
    evs `prefix_of` block d error_key (decodes l s) ∧
    ((∃ f, r = Ok f) → evs = block d error_key (decodes l s)).

End Protocol.

End Protocol.

(** ** The logical readout circuit and the noise sweep *)

Module Readout.

Import Circuit.

(** The measurements of an instruction list, in order: the qubit
    measured and the classical bit written. *)
Definition measured (ins : list instr) : list (qubit * clbit) :=
  omap (λ i, match i with
             | measure q c => Some (q, c)
             | _ => None
             end) ins.

(** The measurements of a stabilization round into the register [c]:
    [mz] into its bits 0 to 3, [mx] into its bits 4 to 7. *)
Definition round_measures (c : creg) : list (qubit * clbit) :=
  [ ((mz, 0), (c, 0)); ((mz, 1), (c, 1)); ((mz, 2), (c, 2)); ((mz, 3), (c, 3));
    ((mx, 0), (c, 4)); ((mx, 1), (c, 5)); ((mx, 2), (c, 6)); ((mx, 3), (c, 7)) ].

(** How [circ.cx(as, bs)] pairs its arguments: qubit by qubit when both
    have the same number of qubits, a single qubit with each qubit of
    the other argument, and [CircuitError] otherwise. *)
Definition broadcast_cx (controls targets : list qubit) : option (list instr) :=
  if bool_decide (length controls = length targets)
  then Some (zip_with cx controls targets)
  else match controls, targets with
       | [a], _ => Some (cx a <$> targets)
       | _, [b] => Some ((λ a, cx a b) <$> controls)
       | _, _ => None
       end.

(** [circ.cx(a, q)] for a qubit [a] and a quantum register [q]. *)
Definition cx_register (circ : ref) (a : qubit) (q : qreg) : M heap unit :=
  match broadcast_cx [a] (qubits q) with
  | Some ins => store circ ins
  | None => raise CircuitError
  end.

(** [ClassicalRegister(1, name="logicalR")] *)
Definition logical_readout : creg := ClassicalRegister 1 "logicalR".

(** The instructions of the Z-logical readout. *)
Definition readout_instrs : list instr :=
  [ reset (logical, 0); cx (data, 0) (logical, 0); cx (data, 1) (logical, 0);
    cx (data, 2) (logical, 0); measure (logical, 0) (logical_readout, 0) ].

Section Script.

Variable measurements : list creg.

(** The cell that builds [circ] and [logical_zero] from [base_circ],
    giving both. *)
Definition build_logical_zero (base_circ : ref) (rounds : Z) : M heap (ref * ref) :=
  circ <- get_stabilized_circ measurements base_circ rounds ;;
  logical_zero <- copy circ ;;
  add_register logical_zero logical_readout ;;
  (* The Z-logical readout *)
  reset_register logical_zero logical ;;
  cx_register logical_zero (data, 0) logical ;;
  cx_register logical_zero (data, 1) logical ;;
  cx_register logical_zero (data, 2) logical ;;
  measure_register logical_zero logical logical_readout 0 1 ;;
  ret (circ, logical_zero).

End Script.

(** What the cell needs of [base_circ] beyond what [stabilize] needs:
    the register [logical], and no register named as the readout
    register. *)
Definition takes_readout (c : QuantumCircuit) : Prop :=
  logical ∈ qregs c ∧ creg_name logical_readout ∉ register_names c.

End Readout.

Module Sweep.

Section Sweep.

(** Physical error rates, noise models, histograms and logical error
    rates are the collaborators' values; [W] is their state. *)
Context {Rate NoiseModel Counts LogicalRate W : Type}.

(** [get_noise_no_meas(rate)]; the shots of [logical_zero] run under a
    noise model, [execute(...).result().get_counts()]; and
    [tool.logical_error_rate(results, expected)]. *)
Variable get_noise_no_meas : Rate → NoiseModel.
Variable execute : NoiseModel → M W Counts.
Variable logical_error_rate : Counts → Z → M W LogicalRate.

(** The state of the cell: the collaborators' state and the global list
    [logical]. *)
Record St := mkSt { world : W; logical : list LogicalRate }.

Definition lift {A} (f : M W A) : M St A :=
  λ s, let '(r, w) := f (world s) in (r, {| world := w; logical := logical s |}).

(** [logical = []] *)
Definition reset_logical : M St unit :=
  λ s, (Ok tt, {| world := world s; logical := [] |}).

(** [logical.append(x)] *)
Definition append_logical (x : LogicalRate) : M St unit :=
  λ s, (Ok tt, {| world := world s; logical := logical s ++ [x] |}).

(** The sweep cell. *)
Definition sweep (noise : list Rate) : M St unit :=
  reset_logical ;;
  for_ noise (λ rate,
    results <- lift (execute (get_noise_no_meas rate)) ;;
    r <- lift (logical_error_rate results 0) ;;
    append_logical r).

(** [rs] are the logical error rates of the noise levels [levels], each
    computed by the tool (against the expected value 0) from the shots
    run under [get_noise_no_meas] of its level, one level after the
    other from the collaborators' state [w] to [w']. *)
Fixpoint swept (w : W) (levels : list Rate) (rs : list LogicalRate) (w' : W)
    : Prop :=
  match levels, rs with
  | [], [] => w' = w
  | rate :: levels, r :: rs =>
      ∃ results w1 w2,
        execute (get_noise_no_meas rate) w = (Ok results, w1) ∧
        logical_error_rate results 0 w1 = (Ok r, w2) ∧
        swept w2 levels rs w'
  | _, _ => False
  end.

(** The level [rate] fails with [e] from the state [w]: its shots raise,
    or the tool raises on their histogram. *)
Definition fails (w : W) (rate : Rate) (e : exn) (w' : W) : Prop :=
  execute (get_noise_no_meas rate) w = (Raise e, w') ∨
  ∃ results w1,
    execute (get_noise_no_meas rate) w = (Ok results, w1) ∧
    logical_error_rate results 0 w1 = (Raise e, w').

End Sweep.

End Sweep.

(** * Part II: properties *)

(** ** [get_stabilized_circ] works on a copy *)

(** The library's check passes for instructions on registers the
    circuit is known to hold. *)
Ltac pass_check :=
  unfold Circuit.valid, Circuit.has_qubit, Circuit.has_clbit;
  unfold Circuit.qubits;
  cbn [fst snd Circuit.qregs Circuit.cregs Circuit.extend forallb
       Circuit.qreg_size Circuit.mz Circuit.mx Circuit.logical
       seq fmap list_fmap zip_with];
  rewrite ?(bool_decide_true (_ ∈ _)) by assumption; reflexivity.

Section CircuitFacts.

Import Circuit.

Variable measurements : list creg.

Lemma extend_extend c xs ys : extend (extend c xs) ys = extend c (xs ++ ys).
Proof. unfold extend; simpl. by rewrite <-(assoc_L (++)). Qed.

Lemma extend_nil c : extend c [] = c.
Proof. destruct c; unfold extend; simpl. by rewrite app_nil_r. Qed.

(** An index produced by [range] denotes the element at that position. *)
Lemma item_of_nat {A} (xs : list A) (n : nat) : item xs (Z.of_nat n) = xs !! n.
Proof. unfold item. rewrite bool_decide_true by lia. by rewrite Nat2Z.id. Qed.

(** Appending through a reference whose object is known. *)
Lemma append_known circ i c (σ : heap) :
  valid c i = true →
  append circ i (<[circ := c]> σ) = (Ok tt, <[circ := extend c [i]]> σ).
Proof.
  intros Hv. unfold append. rewrite lookup_insert_eq, Hv. by rewrite insert_insert_eq.
Qed.

Lemma append_refused circ i c (σ : heap) :
  valid c i = false →
  append circ i (<[circ := c]> σ) = (Raise CircuitError, <[circ := c]> σ).
Proof. intros Hv. unfold append. by rewrite lookup_insert_eq, Hv. Qed.

Lemma bind_append {B} circ i c (σ : heap) (k : unit → M heap B) :
  valid c i = true →
  bind (append circ i) k (<[circ := c]> σ) = k tt (<[circ := extend c [i]]> σ).
Proof. intros Hv. unfold bind. by rewrite append_known. Qed.

(** Instructions that all pass the check are all stored. *)
Lemma store_known circ ins : ∀ c (σ : heap),
  forallb (valid c) ins = true →
  store circ ins (<[circ := c]> σ) = (Ok tt, <[circ := extend c ins]> σ).
Proof.
  unfold store. induction ins as [|i ins IH]; intros c σ Hv; simpl.
  - by rewrite extend_nil.
  - simpl in Hv. apply andb_true_iff in Hv as [Hi Hv].
    rewrite bind_append by done. rewrite IH by done. by rewrite extend_extend.
Qed.

Lemma bind_store {B} circ ins c (σ : heap) (k : unit → M heap B) :
  forallb (valid c) ins = true →
  bind (store circ ins) k (<[circ := c]> σ) = k tt (<[circ := extend c ins]> σ).
Proof. intros Hv. unfold bind. by rewrite store_known. Qed.

Lemma bind_index {A B} (xs : list A) i (σ : heap) (k : A → M heap B) :
  bind (index xs i) k σ =
  match item xs i with
  | Some x => k x σ
  | None => (Raise IndexError, σ)
  end.
Proof. unfold bind, index. by destruct (item xs i). Qed.

(** The two slices [stabilize] takes of a register with eight bits. *)
Lemma slice_low m :
  4 ≤ creg_size m → slice m 0 4 = [(m, 0); (m, 1); (m, 2); (m, 3)].
Proof. intros Hm. unfold slice. by rewrite Nat.min_l by done. Qed.

Lemma slice_high m :
  8 ≤ creg_size m → slice m 4 8 = [(m, 4); (m, 5); (m, 6); (m, 7)].
Proof. intros Hm. unfold slice. by rewrite Nat.min_l by done. Qed.

Lemma round_instrs_fits m :
  8 ≤ creg_size m →
  round_instrs m =
  stabilizer_gates ++
  [ measure (mz, 0) (m, 0); measure (mz, 1) (m, 1);
    measure (mz, 2) (m, 2); measure (mz, 3) (m, 3);
    measure (mx, 0) (m, 4); measure (mx, 1) (m, 5);
    measure (mx, 2) (m, 6); measure (mx, 3) (m, 7);
    reset (mz, 0); reset (mz, 1); reset (mz, 2); reset (mz, 3);
    reset (mx, 0); reset (mx, 1); reset (mx, 2); reset (mx, 3);
    barrier ].
Proof.
  intros Hm. unfold round_instrs.
  rewrite slice_low by lia. by rewrite slice_high by done.
Qed.

Lemma round_instrs_length m : 8 ≤ creg_size m → length (round_instrs m) = 50.
Proof. intros Hm. by rewrite round_instrs_fits. Qed.

Lemma broadcast_measure_same qs cs :
  length cs = length qs → broadcast_measure qs cs = Some (zip_with measure qs cs).
Proof. intros Hl. unfold broadcast_measure. by rewrite bool_decide_true. Qed.

(** One call of [stabilize] on a circuit with the registers: the gates,
    then [IndexError] when [measurements[i]] does not exist ... *)
Lemma stabilize_index_error circ i c (σ : heap) :
  has_stabilizer_registers c →
  item measurements i = None →
  stabilize measurements circ i (<[circ := c]> σ) =
  (Raise IndexError, <[circ := extend c stabilizer_gates]> σ).
Proof.
  intros (Hd & Hx & Hz) Hi. unfold stabilize.
  do 33 (rewrite bind_append by pass_check; cbv beta).
  rewrite bind_index, Hi. rewrite !extend_extend. reflexivity.
Qed.

(** ... and a whole round when it exists and fits the circuit. *)
Lemma stabilize_round circ i c m (σ : heap) :
  has_stabilizer_registers c →
  item measurements i = Some m → fits c m →
  stabilize measurements circ i (<[circ := c]> σ) =
  (Ok tt, <[circ := extend c (round_instrs m)]> σ).
Proof.
  intros (Hd & Hx & Hz) Hi [Hm Hsize]. unfold stabilize.
  do 33 (rewrite bind_append by pass_check; cbv beta).
  rewrite bind_index, Hi. unfold measure_register, reset_register.
  rewrite slice_low by lia. rewrite broadcast_measure_same by done.
  rewrite bind_store by pass_check. cbv beta.
  rewrite bind_index, Hi. rewrite slice_high by lia.
  rewrite broadcast_measure_same by done.
  do 3 (rewrite bind_store by pass_check; cbv beta).
  rewrite append_known by pass_check.
  rewrite !extend_extend. rewrite round_instrs_fits by done. reflexivity.
Qed.

(** *** What a call of [stabilize] can touch *)

Lemma confined_ret {A} circ (a : A) : confined circ (ret a).
Proof. intros c σ. exists (Ok a), c. by repeat split. Qed.

Lemma confined_bind {A B} circ (m : M heap A) (k : A → M heap B) :
  confined circ m → (∀ a, confined circ (k a)) → confined circ (bind m k).
Proof.
  intros Hm Hk c σ. unfold bind.
  destruct (Hm c σ) as (r & c1 & -> & Hq & Hc & Hp & He).
  destruct r as [a|e]; cycle 1.
  { exists (Raise e), c1. repeat split; try done. intros e' [= <-]. by apply He. }
  destruct (Hk a c1 σ) as (r & c2 & -> & Hq2 & Hc2 & Hp2 & He2).
  exists r, c2. split; [done|]. split; [congruence|]. split; [congruence|].
  split; [by etrans|done].
Qed.

Lemma confined_append circ i : confined circ (append circ i).
Proof.
  intros c σ. destruct (valid c i) eqn:Hv.
  - rewrite append_known by done. exists (Ok tt), (extend c [i]).
    repeat split; [by apply prefix_app_r|done].
  - rewrite append_refused by done. exists (Raise CircuitError), c.
    repeat split; [done|]. intros e [= <-]. by right.
Qed.

Lemma confined_index {A} circ (xs : list A) i : confined circ (index xs i).
Proof.
  intros c σ. unfold index. destruct (item xs i) as [x|].
  - apply confined_ret.
  - exists (Raise IndexError), c. repeat split; [done|]. intros e [= <-]. by left.
Qed.

Lemma confined_for {A} circ (xs : list A) (body : A → M heap unit) :
  (∀ x, confined circ (body x)) → confined circ (for_ xs body).
Proof.
  intros Hbody. induction xs as [|x xs IH]; simpl.
  - apply confined_ret.
  - apply confined_bind; [apply Hbody | by intros _].
Qed.

Lemma confined_store circ ins : confined circ (store circ ins).
Proof. apply confined_for. intros i. apply confined_append. Qed.

Lemma confined_measure_register circ q m lo hi :
  confined circ (measure_register circ q m lo hi).
Proof.
  unfold measure_register.
  destruct (broadcast_measure _ _); [apply confined_store|].
  intros c σ. exists (Raise CircuitError), c. repeat split; [done|].
  intros e [= <-]. by right.
Qed.

Lemma stabilize_confined circ i : confined circ (stabilize measurements circ i).
Proof.
  unfold stabilize, reset_register.
  repeat first
    [ apply confined_append
    | apply confined_store
    | apply confined_index
    | apply confined_measure_register
    | apply confined_bind; [|intros ?] ].
Qed.

(** On a circuit that lacks one of the three registers the library
    refuses one of the first four gates. *)
Lemma stabilize_refused circ i c (σ : heap) :
  ¬ has_stabilizer_registers c →
  ∃ c', stabilize measurements circ i (<[circ := c]> σ) =
          (Raise CircuitError, <[circ := c']> σ) ∧
        length (qc_data c') ≤ length (qc_data c) + 3.
Proof.
  intros Hno. unfold stabilize.
  destruct (decide (mx ∈ qregs c)) as [Hx|Hx]; cycle 1.
  { exists c. unfold bind at 1. rewrite append_refused.
    - split; [done|lia].
    - simpl. unfold has_qubit; simpl. by rewrite bool_decide_false. }
  rewrite bind_append by pass_check; cbv beta.
  destruct (decide (data ∈ qregs c)) as [Hd|Hd]; cycle 1.
  { eexists. unfold bind at 1. rewrite append_refused.
    - split; [done|]. simpl. rewrite length_app. simpl. lia.
    - simpl. unfold has_qubit; simpl. rewrite (bool_decide_false (data ∈ _)) by done.
      by rewrite andb_false_r. }
  do 2 (rewrite bind_append by pass_check; cbv beta).
  assert (mz ∉ qregs c) as Hz by (intros Hz; by apply Hno).
  eexists. unfold bind at 1. rewrite append_refused.
  - split; [done|]. simpl. rewrite !length_app. simpl. lia.
  - simpl. unfold has_qubit; simpl. rewrite (bool_decide_false (mz ∈ _)) by done.
    by rewrite andb_false_r.
Qed.

(** The loop over the indices [s], ..., [s + n - 1]: when every index
    is in range and its register fits, one round per index, each with
    its own measurement register. *)
Lemma for_stabilize_ok n : ∀ s circ c (σ : heap),
  has_stabilizer_registers c →
  Forall (fits c) (take n (drop s measurements)) →
  s + n ≤ length measurements →
  for_ (Z.of_nat <$> seq s n) (stabilize measurements circ) (<[circ := c]> σ) =
  (Ok tt, <[circ := extend c (flat_map round_instrs (take n (drop s measurements)))]> σ).
Proof.
  induction n as [|n IH]; intros s circ c σ Hregs Hfit Hlen; simpl.
  - by rewrite extend_nil.
  - destruct (lookup_lt_is_Some_2 measurements s) as [m Hm]; [lia|].
    rewrite (drop_S _ _ _ Hm) in Hfit |- *. simpl in Hfit.
    apply Forall_cons in Hfit as [Hfitm Hfit].
    unfold bind. rewrite (stabilize_round circ _ c m); [| done | | done]; cycle 1.
    { by rewrite item_of_nat. }
    rewrite IH; [|done|done|lia].
    rewrite extend_extend. reflexivity.
Qed.

(** The first index out of range stops the loop with [IndexError]. *)
Lemma for_stabilize_raises n : ∀ s circ c (σ : heap),
  has_stabilizer_registers c →
  Forall (fits c) measurements →
  s ≤ length measurements < s + n →
  (for_ (Z.of_nat <$> seq s n) (stabilize measurements circ) (<[circ := c]> σ)).1 =
  Raise IndexError.
Proof.
  induction n as [|n IH]; intros s circ c σ Hregs Hfit Hlen; simpl; [lia|].
  unfold bind. destruct (measurements !! s) as [m|] eqn:Hm.
  - rewrite (stabilize_round circ _ c m); [| done | by rewrite item_of_nat |].
    + apply lookup_lt_Some in Hm as Hlt. apply IH; [done|done|lia].
    + rewrite Forall_forall in Hfit. apply Hfit. by eapply list_elem_of_lookup_2.
  - rewrite stabilize_index_error; [done|done|by rewrite item_of_nat].
Qed.

Lemma copy_known base c (σ : heap) :
  σ !! base = Some c →
  copy base σ = (Ok (fresh (dom σ)), <[fresh (dom σ) := c]> σ).
Proof. intros Hb. unfold copy. by rewrite Hb. Qed.

Lemma fresh_ref_unused (σ : heap) : σ !! fresh (dom σ) = None.
Proof. apply not_elem_of_dom, is_fresh. Qed.

(** The shape of every run of [get_stabilized_circ]: a result, and the
    heap it started from plus one new object with the base circuit's
    registers. *)
Lemma get_stabilized_circ_heap base c rounds (σ : heap) :
  σ !! base = Some c →
  ∃ r c', get_stabilized_circ measurements base rounds σ =
          (r, <[fresh (dom σ) := c']> σ) ∧
          (∀ e, r = Raise e → e = IndexError ∨ e = CircuitError).
Proof.
  intros Hb. unfold get_stabilized_circ, bind at 1.
  rewrite (copy_known _ _ _ Hb). unfold bind.
  destruct (confined_for (fresh (dom σ)) (range (rounds + 1))
              (λ i, stabilize measurements (fresh (dom σ)) i)
              (stabilize_confined _) c σ) as (r & c' & -> & _ & _ & _ & He).
  destruct r as [[]|e].
  - exists (Ok (fresh (dom σ))), c'. split; [done|]. by intros e [=].
  - exists (Raise e), c'. split; [done|]. intros e' [= <-]. by apply He.
Qed.

Lemma get_stabilized_circ_ok base c rounds (σ : heap) :
  σ !! base = Some c →
  has_stabilizer_registers c →
  Forall (fits c) (take (Z.to_nat (rounds + 1)) measurements) →
  (rounds + 1 ≤ Z.of_nat (length measurements))%Z →
  get_stabilized_circ measurements base rounds σ =
  (Ok (fresh (dom σ)),
   <[fresh (dom σ) :=
       extend c (flat_map round_instrs (take (Z.to_nat (rounds + 1)) measurements))]> σ).
Proof.
  intros Hb Hregs Hfit Hlen. unfold get_stabilized_circ, bind at 1.
  rewrite (copy_known _ _ _ Hb). unfold bind, range.
  change (λ i, stabilize measurements ?x i) with (stabilize measurements x).
  rewrite for_stabilize_ok; [by rewrite drop_0 | done | by rewrite drop_0 | simpl; lia].
Qed.

Lemma get_stabilized_circ_raises base c rounds (σ : heap) :
  σ !! base = Some c →
  has_stabilizer_registers c →
  Forall (fits c) measurements →
  (Z.of_nat (length measurements) < rounds + 1)%Z →
  (get_stabilized_circ measurements base rounds σ).1 = Raise IndexError.
Proof.
  intros Hb Hregs Hfit Hlen. unfold get_stabilized_circ, bind at 1.
  rewrite (copy_known _ _ _ Hb). unfold bind, range.
  change (λ i, stabilize measurements ?x i) with (stabilize measurements x).
  pose proof (for_stabilize_raises (Z.to_nat (rounds + 1)) 0 (fresh (dom σ)) c σ
                Hregs Hfit) as Hr.
  destruct (for_ _ _ _) as [[[]|e] σ']; simpl in *.
  - discriminate Hr. lia.
  - assert (Raise (A:=unit) e = Raise IndexError) as [= ->] by (apply Hr; lia).
    done.
Qed.

(** Without the registers the first round already fails. *)
Lemma get_stabilized_circ_refused base c rounds (σ : heap) :
  σ !! base = Some c →
  ¬ has_stabilizer_registers c →
  (0 ≤ rounds)%Z →
  (get_stabilized_circ measurements base rounds σ).1 = Raise CircuitError.
Proof.
  intros Hb Hregs Hr. unfold get_stabilized_circ, bind at 1.
  rewrite (copy_known _ _ _ Hb). unfold bind, range.
  replace (Z.to_nat (rounds + 1)) with (S (Z.to_nat rounds)) by lia.
  simpl. unfold bind.
  destruct (stabilize_refused (fresh (dom σ)) (Z.of_nat 0) c σ Hregs) as (c' & -> & _).
  done.
Qed.

End CircuitFacts.

(** The notebook declares three measurement registers, named after the
    rounds. *)
Example notebook_measurements :
  Circuit.measurements =
  [Circuit.ClassicalRegister 8 "c1"; Circuit.ClassicalRegister 8 "c2";
   Circuit.ClassicalRegister 8 "c3"].
Proof. reflexivity. Qed.

(** The notebook's [base_circ] holds every register [stabilize] uses. *)
Lemma base_circ_registers :
  Circuit.has_stabilizer_registers Circuit.base_circ ∧
  Forall (Circuit.fits Circuit.base_circ) Circuit.measurements.
Proof.
  split.
  - unfold Circuit.has_stabilizer_registers; simpl. set_solver.
  - rewrite notebook_measurements. unfold Circuit.fits, Circuit.base_circ.
    rewrite notebook_measurements. simpl.
    repeat (apply Forall_cons_2; [split; [set_solver|simpl; lia]|]).
    apply Forall_nil_2.
Qed.

(** C9 as stated fails at [rounds = 3]: the notebook declares three
    measurement registers, the fourth round reads [measurements[3]], and
    the call raises [IndexError] instead of returning the copy. *)
Lemma get_stabilized_circ_three_rounds_raises :
  (Circuit.get_stabilized_circ Circuit.measurements 1%positive 3
     Circuit.notebook_heap).1 = Raise IndexError.
Proof.
  destruct base_circ_registers as [Hregs Hfit].
  apply get_stabilized_circ_raises with (c := Circuit.base_circ); [done..|].
  vm_compute. done.
Qed.

(** C9, amended: [get_stabilized_circ] never mutates a circuit that
    already exists, [base_circuit] included, and raises nothing but
    [IndexError] and [CircuitError].  On a base circuit that holds the
    registers [data], [mx] and [mz]: whenever [rounds + 1] is at most
    the number of declared measurement registers, and those used are
    registers of the circuit with eight bits, it returns a new circuit
    holding the base circuit's instructions followed by
    [max (rounds + 1) 0] stabilization rounds, round [i] measuring into
    [measurements[i]]; beyond that number it raises [IndexError].  On a
    base circuit that lacks one of the three registers every call with
    [rounds >= 0] raises [CircuitError]. *)
Theorem get_stabilized_circ_frame
    (measurements : list Circuit.creg) (σ : gmap Circuit.ref Circuit.QuantumCircuit)
    (base_circuit : Circuit.ref) (c : Circuit.QuantumCircuit) (rounds : Z) :
  σ !! base_circuit = Some c →
  ∃ r σ',
    Circuit.get_stabilized_circ measurements base_circuit rounds σ = (r, σ') ∧
    (∀ l c', σ !! l = Some c' → σ' !! l = Some c') ∧
    (∀ e, r = Raise e → e = IndexError ∨ e = CircuitError) ∧
    (Circuit.has_stabilizer_registers c →
       ((rounds + 1 ≤ Z.of_nat (length measurements))%Z →
        Forall (Circuit.fits c) (take (Z.to_nat (rounds + 1)) measurements) →
        ∃ circ, r = Ok circ ∧ circ ≠ base_circuit ∧ σ !! circ = None ∧
          σ' !! circ = Some (Circuit.extend c
            (flat_map Circuit.round_instrs
               (take (Z.to_nat (rounds + 1)) measurements)))) ∧
       ((Z.of_nat (length measurements) < rounds + 1)%Z →
        Forall (Circuit.fits c) measurements → r = Raise IndexError)) ∧
    (¬ Circuit.has_stabilizer_registers c → (0 ≤ rounds)%Z →
       r = Raise CircuitError).
Proof.
  intros Hb.
  destruct (get_stabilized_circ_heap measurements base_circuit c rounds σ Hb)
    as (r & c' & Hrun & Hexn).
  exists r, (<[fresh (dom σ) := c']> σ). split; [done|].
  pose proof (fresh_ref_unused σ) as Hfresh.
  split; [|split; [done|split; [intros Hregs; split|]]].
  - intros l cl Hl. rewrite lookup_insert_ne; [done|]. congruence.
  - intros Hlen Hfit.
    rewrite (get_stabilized_circ_ok measurements _ _ _ _ Hb Hregs Hfit Hlen) in Hrun.
    injection Hrun as <- Hσ. exists (fresh (dom σ)).
    split; [done|]. split; [congruence|]. split; [done|].
    rewrite <-Hσ. apply lookup_insert_eq.
  - intros Hlen Hfit.
    pose proof (get_stabilized_circ_raises measurements _ _ _ _ Hb Hregs Hfit Hlen)
      as Hr.
    by rewrite Hrun in Hr.
  - intros Hregs Hr.
    pose proof (get_stabilized_circ_refused measurements _ _ _ _ Hb Hregs Hr) as He.
    by rewrite Hrun in He.
Qed.

(** The notebook's call [get_stabilized_circ(base_circ, rounds)]: three
    rounds of fifty instructions on a new circuit, [base_circ] as it
    was. *)
Lemma get_stabilized_circ_frame_notebook :
  ∃ circ σ' c',
    Circuit.get_stabilized_circ Circuit.measurements 1%positive Circuit.rounds
      Circuit.notebook_heap = (Ok circ, σ') ∧
    circ ≠ 1%positive ∧
    σ' !! 1%positive = Some Circuit.base_circ ∧
    σ' !! circ = Some c' ∧
    c' = Circuit.extend Circuit.base_circ
           (flat_map Circuit.round_instrs Circuit.measurements) ∧
    length (Circuit.qc_data c') = 150.
Proof.
  destruct (get_stabilized_circ_frame Circuit.measurements Circuit.notebook_heap
              1%positive Circuit.base_circ Circuit.rounds eq_refl)
    as (r & σ' & Hrun & Hframe & _ & Hok & _).
  destruct base_circ_registers as [Hregs Hfit].
  destruct (Hok Hregs) as [Hok' _].
  destruct Hok' as (circ & -> & Hne & _ & Hcirc); [vm_compute; discriminate|done|].
  exists circ, σ'. eexists. split; [done|]. split; [done|].
  split; [by apply Hframe|]. split; [exact Hcirc|]. split; reflexivity.
Defined.

(** A circuit without registers: the first gate is refused. *)
Example get_stabilized_circ_no_registers :
  (Circuit.get_stabilized_circ Circuit.measurements 1%positive Circuit.rounds
     {[ 1%positive := Circuit.mkCircuit [] [] [] ]}).1 = Raise CircuitError.
Proof. reflexivity. Qed.

(** ** [full_loop]: what reaches the decoders *)

Section HarnessFacts.

Import Decoder.

Context {node MGraph Matches qubit flip Net Noise W Obj : Type}.
Context `{Countable qubit}.
Context `{!Iterable W node Obj}.

Abbreviation St := (St (node:=node) (qubit:=qubit) (flip:=flip) (W:=W)).
Abbreviation GraphDecoder :=
  (GraphDecoder (node:=node) (MGraph:=MGraph) (Matches:=Matches)
     (qubit:=qubit) (flip:=flip) (Net:=Net) (W:=W) (Obj:=Obj)).

Implicit Types (J : St → Prop) (dec : GraphDecoder) (l : listref).

Lemma preserves_ret {A} J (a : A) : preserves J (ret a).
Proof. by intros s. Qed.

Lemma preserves_raise {A} J e : preserves J (raise (A:=A) e).
Proof. by intros s. Qed.

Lemma preserves_bind {A B} J (m : M St A) (k : A → M St B) :
  preserves J m → (∀ a, preserves J (k a)) → preserves J (bind m k).
Proof.
  intros Hm Hk s Hs. unfold bind. specialize (Hm s Hs).
  destruct (m s) as [[a|e] s']; simpl in *; [by apply Hk | done].
Qed.

Lemma preserves_invoke {A} J e (f : M (Env W node) A) :
  (∀ s env, J s → J (absorb s env (trace s ++ [e]))) →
  preserves J (invoke e f).
Proof.
  intros HJ s Hs. unfold invoke. destruct (f (expose s)) as [r env]; simpl.
  by apply HJ.
Qed.

Lemma preserves_external {A} J (f : M (Env W node) A) :
  (∀ s env, J s → J (absorb s env (trace s))) →
  preserves J (external f).
Proof.
  intros HJ s Hs. unfold external. destruct (f (expose s)) as [r env]; simpl.
  by apply HJ.
Qed.

Lemma preserves_deref J l : preserves J (deref l).
Proof. by intros s. Qed.

Lemma preserves_hand J l :
  (∀ s, J s → J (hand l s).2) → preserves J (hand l).
Proof. intros HJ s Hs. by apply HJ. Qed.

Lemma preserves_unpack2 J (v : Obj) :
  (∀ s env, J s → J (absorb s env (trace s))) →
  preserves J (unpack2 v).
Proof.
  intros HJ. unfold unpack2. apply preserves_bind; [by apply preserves_external|].
  intros [|a [|b [|c items]]];
    first [apply preserves_raise | apply preserves_ret].
Qed.

Lemma preserves_getitem {V} J (d : gmap string V) k : preserves J (getitem d k).
Proof.
  unfold getitem. destruct (d !! k); [apply preserves_ret | apply preserves_raise].
Qed.

Ltac preserve_step :=
  first
    [ apply preserves_ret
    | apply preserves_raise
    | apply preserves_deref
    | apply preserves_unpack2; intros; auto
    | apply preserves_getitem
    | apply preserves_invoke; intros; auto
    | apply preserves_hand; intros; auto
    | apply preserves_bind; [|intros] ].

Lemma analytic_body_preserves J dec error_key l :
  stable_for J analytic error_key l →
  preserves J (analytic_body dec error_key l).
Proof.
  intros (Hcall & Hext & Hhand).
  unfold analytic_body, truthy, call_make_error_graph.
  apply preserves_bind; [repeat preserve_step|]. intros [|]; repeat preserve_step.
Qed.

Lemma simulated_body_preserves J dec error_key l :
  stable_for J simulated error_key l →
  preserves J (simulated_body dec error_key l).
Proof.
  intros (Hcall & Hext & Hhand).
  unfold simulated_body, truthy, call_make_error_graph.
  apply preserves_bind; [repeat preserve_step|]. intros [|]; repeat preserve_step.
Qed.

(** With an empty defect list a loop body calls nothing and yields the
    empty dictionary. *)
Lemma analytic_body_empty dec error_key l (s : St) :
  (deref l s).1 = Ok [] →
  analytic_body dec error_key l s = (Ok ∅, s).
Proof.
  intros Hl. unfold analytic_body, truthy, bind at 1. unfold bind at 1.
  destruct l; simpl in *; injection Hl as ->; reflexivity.
Qed.

Lemma simulated_body_empty dec error_key l (s : St) :
  (deref l s).1 = Ok [] →
  simulated_body dec error_key l s = (Ok ∅, s).
Proof.
  intros Hl. unfold simulated_body, truthy, bind at 1. unfold bind at 1.
  destruct l; simpl in *; injection Hl as ->; reflexivity.
Qed.

Lemma analytic_loop_body dec : loop_body analytic (analytic_body dec).
Proof.
  split; [intros; by apply analytic_body_preserves | apply analytic_body_empty].
Qed.

Lemma simulated_loop_body dec : loop_body simulated (simulated_body dec).
Proof.
  split; [intros; by apply simulated_body_preserves | apply simulated_body_empty].
Qed.

(** The loop of a pass, unfolded: the body for "X", then the body for
    "Z", each result stored under its key. *)
Lemma decode_items_unfold (body : string → listref → M St (gmap qubit flip))
    (s : St) :
  decode_items body error_items ∅ s =
  match body "X" X_errors s with
  | (Raise e, s1) => (Raise e, s1)
  | (Ok fx, s1) =>
      match body "Z" Z_errors s1 with
      | (Raise e, s2) => (Raise e, s2)
      | (Ok fz, s2) => (Ok (<["Z" := fz]> (<["X" := fx]> ∅)), s2)
      end
  end.
Proof.
  unfold error_items; simpl. unfold bind.
  destruct (body "X" X_errors s) as [[fx|e] s1]; [|done].
  by destruct (body "Z" Z_errors s1) as [[fz|e] s2].
Qed.

(** One pass, unfolded: the body for "X", the body for "Z", then the
    merge of the two dictionaries stored under those keys.  A pass
    raises only where a loop body or [net_qubit_flips] does: both
    lookups in [flips] succeed. *)
Lemma decoder_pass_unfold d dec body (s : St) :
  decoder_pass d dec body s =
  match body "X" X_errors s with
  | (Raise e, s1) => (Raise e, s1)
  | (Ok fx, s1) =>
      match body "Z" Z_errors s1 with
      | (Raise e, s2) => (Raise e, s2)
      | (Ok fz, s2) =>
          invoke (NetCall d (<["Z" := fz]> (<["X" := fx]> ∅)))
            (net_qubit_flips dec fx fz) s2
      end
  end.
Proof.
  unfold decoder_pass, bind at 1. rewrite decode_items_unfold.
  destruct (body "X" X_errors s) as [[fx|e] s1]; [|done].
  destruct (body "Z" Z_errors s1) as [[fz|e] s2]; [|done].
  unfold bind, getitem.
  rewrite lookup_insert_ne by done. rewrite lookup_insert_eq.
  rewrite lookup_insert_eq. simpl.
  by destruct (invoke _ _ s2) as [[?|?] ?].
Qed.

(** An invariant kept by both loop bodies, given what they store under
    "X" and "Z", is kept by the whole pass. *)
Lemma decoder_pass_preserves d dec body J (GX GZ : gmap qubit flip → Prop) :
  (∀ s, J s → J (body "X" X_errors s).2 ∧
             ∀ f, (body "X" X_errors s).1 = Ok f → GX f) →
  (∀ s, J s → J (body "Z" Z_errors s).2 ∧
             ∀ f, (body "Z" Z_errors s).1 = Ok f → GZ f) →
  (∀ s env fx fz, J s → GX fx → GZ fz →
     J (absorb s env (trace s ++ [NetCall d (<["Z" := fz]> (<["X" := fx]> ∅))]))) →
  preserves J (decoder_pass d dec body).
Proof.
  intros HX HZ Hnet s Hs. rewrite decoder_pass_unfold.
  destruct (HX s Hs) as [HJ1 HG1].
  destruct (body "X" X_errors s) as [[fx|e] s1]; simpl in *; [|done].
  destruct (HZ s1 HJ1) as [HJ2 HG2].
  destruct (body "Z" Z_errors s1) as [[fz|e] s2]; simpl in *; [|done].
  unfold invoke. destruct (net_qubit_flips dec fx fz (expose s2)) as [r env]; simpl.
  apply Hnet; auto.
Qed.

(** The run of [full_loop] once the sample is known. *)
Lemma full_loop_sampled (sample : option Noise → M W (list node * list node))
    (dec_sim dec_ana : GraphDecoder) noise w X Z w' :
  sample noise w = (Ok (X, Z), w') →
  full_loop sample dec_sim dec_ana noise (initial w) =
  (a <- decoder_pass analytic dec_ana (analytic_body dec_ana) ;;
   s <- decoder_pass simulated dec_sim (simulated_body dec_sim) ;;
   ret (a, s)) (sampled w' X Z).
Proof.
  intros Hs. unfold full_loop, bind at 1. unfold lift; simpl. rewrite Hs. reflexivity.
Qed.

Lemma full_loop_not_sampled (sample : option Noise → M W (list node * list node))
    (dec_sim dec_ana : GraphDecoder) noise w e w' :
  sample noise w = (Raise e, w') →
  full_loop sample dec_sim dec_ana noise (initial w) = (Raise e, initial w').
Proof.
  intros Hs. unfold full_loop, bind at 1. unfold lift; simpl. rewrite Hs. reflexivity.
Qed.

Lemma two_passes_preserve J (dec_sim dec_ana : GraphDecoder) :
  preserves J (decoder_pass analytic dec_ana (analytic_body dec_ana)) →
  preserves J (decoder_pass simulated dec_sim (simulated_body dec_sim)) →
  preserves J
    (a <- decoder_pass analytic dec_ana (analytic_body dec_ana) ;;
     s <- decoder_pass simulated dec_sim (simulated_body dec_sim) ;;
     ret (a, s)).
Proof.
  intros Ha Hs. apply preserves_bind; [done|]. intros a.
  apply preserves_bind; [done|]. intros s. apply preserves_ret.
Qed.

(** *** The keys of [flips] *)



(** *** Empty defect lists *)

(** A list that is empty and was handed to no collaborator stays so
    through a pass, and nothing is done for its key. *)
Lemma decoder_pass_quiet_X d dec body :
  loop_body d body →
  preserves (λ s, (handed s).1 = false ∧ (defects s).1 = [] ∧
                  Forall (quiet "X") (trace s))
    (decoder_pass d dec body).
Proof.
  intros [Hbody Hempty].
  apply decoder_pass_preserves with (GX := λ f, f = ∅) (GZ := λ _, True).
  - intros s (Hh & HX & Htr).
    assert (body "X" X_errors s = (Ok ∅, s)) as ->
      by (apply Hempty; simpl; by rewrite HX).
    simpl. split; [done|]. by intros f [= <-].
  - intros s Hs. split; [|done].
    apply (Hbody (λ s, (handed s).1 = false ∧ (defects s).1 = [] ∧
                       Forall (quiet "X") (trace s))
             "Z" Z_errors); [|done].
    split; [|split].
    + intros c s' env (Hh & HX & Htr); simpl. rewrite Hh. split; [done|].
      split; [done|]. apply Forall_app; split; [done|]. by apply Forall_singleton.
    + intros s' env (Hh & HX & Htr); simpl. by rewrite Hh.
    + by intros s' (Hh & HX & Htr).
  - intros s env fx fz (Hh & HX & Htr) -> _; simpl. rewrite Hh.
    split; [done|]. split; [done|].
    apply Forall_app; split; [done|]. apply Forall_singleton; simpl.
    rewrite lookup_insert_ne by done. by rewrite lookup_insert_eq.
Qed.

Lemma decoder_pass_quiet_Z d dec body :
  loop_body d body →
  preserves (λ s, (handed s).2 = false ∧ (defects s).2 = [] ∧
                  Forall (quiet "Z") (trace s))
    (decoder_pass d dec body).
Proof.
  intros [Hbody Hempty].
  apply decoder_pass_preserves with (GX := λ _, True) (GZ := λ f, f = ∅).
  - intros s Hs. split; [|done].
    apply (Hbody (λ s, (handed s).2 = false ∧ (defects s).2 = [] ∧
                       Forall (quiet "Z") (trace s))
             "X" X_errors); [|done].
    split; [|split].
    + intros c s' env (Hh & HZ & Htr); simpl. rewrite Hh. split; [done|].
      split; [done|]. apply Forall_app; split; [done|]. by apply Forall_singleton.
    + intros s' env (Hh & HZ & Htr); simpl. by rewrite Hh.
    + by intros s' (Hh & HZ & Htr).
  - intros s (Hh & HZ & Htr).
    assert (body "Z" Z_errors s = (Ok ∅, s)) as ->
      by (apply Hempty; simpl; by rewrite HZ).
    simpl. split; [done|]. by intros f [= <-].
  - intros s env fx fz (Hh & HZ & Htr) _ ->; simpl. rewrite Hh.
    split; [done|]. split; [done|].
    apply Forall_app; split; [done|]. apply Forall_singleton; simpl.
    by rewrite lookup_insert_eq.
Qed.

Lemma full_loop_quiet_X (sample : option Noise → M W (list node * list node))
    (dec_sim dec_ana : GraphDecoder) noise w Z w' :
  sample noise w = (Ok ([], Z), w') →
  Forall (quiet "X") (trace (full_loop sample dec_sim dec_ana noise (initial w)).2).
Proof.
  intros Hs. rewrite (full_loop_sampled _ _ _ _ _ _ _ _ Hs).
  apply (two_passes_preserve
           (λ s, (handed s).1 = false ∧ (defects s).1 = [] ∧
                 Forall (quiet "X") (trace s))); [| |by simpl].
  - apply decoder_pass_quiet_X, analytic_loop_body.
  - apply decoder_pass_quiet_X, simulated_loop_body.
Qed.

Lemma full_loop_quiet_Z (sample : option Noise → M W (list node * list node))
    (dec_sim dec_ana : GraphDecoder) noise w X w' :
  sample noise w = (Ok (X, []), w') →
  Forall (quiet "Z") (trace (full_loop sample dec_sim dec_ana noise (initial w)).2).
Proof.
  intros Hs. rewrite (full_loop_sampled _ _ _ _ _ _ _ _ Hs).
  apply (two_passes_preserve
           (λ s, (handed s).2 = false ∧ (defects s).2 = [] ∧
                 Forall (quiet "Z") (trace s))); [| |by simpl].
  - apply decoder_pass_quiet_Z, analytic_loop_body.
  - apply decoder_pass_quiet_Z, simulated_loop_body.
Qed.

(** With both lists empty a pass makes one call, [net_qubit_flips({}, {})]. *)
Lemma decoder_pass_both_empty d dec body (s : St) :
  loop_body d body →
  defects s = ([], []) →
  decoder_pass d dec body s =
  invoke (NetCall d (<["Z" := ∅]> (<["X" := ∅]> ∅))) (net_qubit_flips dec ∅ ∅) s.
Proof.
  intros [_ Hempty] Hd. rewrite decoder_pass_unfold.
  assert (body "X" X_errors s = (Ok ∅, s)) as ->
    by (apply Hempty; simpl; by rewrite Hd).
  assert (body "Z" Z_errors s = (Ok ∅, s)) as ->
    by (apply Hempty; simpl; by rewrite Hd).
  done.
Qed.

Context `{Empty Net}.

Lemma decoder_pass_merges_empty d dec body (s : St) :
  loop_body d body →
  merges_empty dec →
  defects s = ([], []) → handed s = (false, false) →
  ∃ w, decoder_pass d dec body s =
       (Ok ∅, {| world := w; defects := ([], []); handed := (false, false);
                 trace := trace s ++ [NetCall d (<["Z" := ∅]> (<["X" := ∅]> ∅))] |}).
Proof.
  intros Hbody Hnet Hd Hh. rewrite (decoder_pass_both_empty _ _ _ _ Hbody Hd).
  unfold invoke. specialize (Hnet (expose s)).
  destruct (net_qubit_flips dec ∅ ∅ (expose s)) as [r env]; simpl in *.
  subst r. unfold absorb. rewrite Hd, Hh. by exists env.1.
Qed.

(** C2: when the sample has no defect of an error type, no decoder
    method (so no matching) is called for that type and [flips] holds
    the empty dictionary under it, in both passes; when it has no defect
    of either type, each pass only calls [net_qubit_flips({}, {})], and
    the merged correction of a decoder that merges empty flip maps into
    the empty correction is empty. *)
Theorem full_loop_empty_defects
    (sample : option Noise → M W (list node * list node))
    (decoder_simulated decoder_analytic : GraphDecoder)
    (noise_model : option Noise) (w w' : W) (X Z : list node) :
  sample noise_model w = (Ok (X, Z), w') →
  let run := full_loop sample decoder_simulated decoder_analytic noise_model
               (initial w) in
  (X = [] → Forall (quiet "X") (trace run.2)) ∧
  (Z = [] → Forall (quiet "Z") (trace run.2)) ∧
  (X = [] → Z = [] →
   merges_empty decoder_analytic → merges_empty decoder_simulated →
   run.1 = Ok (∅, ∅) ∧
   trace run.2 = [NetCall analytic (<["Z" := ∅]> (<["X" := ∅]> ∅));
                  NetCall simulated (<["Z" := ∅]> (<["X" := ∅]> ∅))]).
Proof.
  intros Hs run. split; [|split].
  - intros ->. by apply (full_loop_quiet_X _ _ _ _ _ _ _ Hs).
  - intros ->. by apply (full_loop_quiet_Z _ _ _ _ _ _ _ Hs).
  - intros -> -> Ha Hsim.
    assert (∃ w2, run =
      (Ok (∅, ∅),
       {| world := w2; defects := ([], []); handed := (false, false);
          trace := [NetCall analytic (<["Z" := ∅]> (<["X" := ∅]> ∅));
                    NetCall simulated (<["Z" := ∅]> (<["X" := ∅]> ∅))] |}))
      as [w2 ->]; [|done].
    subst run. rewrite (full_loop_sampled _ _ _ _ _ _ _ _ Hs). unfold bind at 1.
    destruct (decoder_pass_merges_empty analytic decoder_analytic _
                (sampled w' [] []) (analytic_loop_body decoder_analytic) Ha
                eq_refl eq_refl) as [w1 H1].
    simpl in H1. rewrite H1. unfold bind at 1.
    destruct (decoder_pass_merges_empty simulated decoder_simulated _
                {| world := w1; defects := ([], []); handed := (false, false);
                   trace := [NetCall analytic (<["Z" := ∅]> (<["X" := ∅]> ∅))] |}
                (simulated_loop_body decoder_simulated) Hsim eq_refl eq_refl)
      as [w2 H2].
    simpl in H2. rewrite H2. by exists w2.
Qed.

End HarnessFacts.

(** The merge modelled from the spec sends two empty flip maps to the
    empty correction. *)
Lemma net_qubit_flips_empty {qubit} `{Countable qubit} :
  FlipCalculator.net_qubit_flips (qubit:=qubit) ∅ ∅ = ∅.
Proof. apply merge_empty. Qed.

Lemma toy_merges_empty simulation : Decoder.merges_empty (Toy.decoder simulation).
Proof. intros w. simpl. by rewrite net_qubit_flips_empty. Qed.

(** A sample without defects, run through the stand-in decoders. *)
Lemma full_loop_empty_defects_toy :
  let run := Decoder.full_loop (Toy.sample [] []) (Toy.decoder true)
               (Toy.decoder false) None (Decoder.initial ()) in
  Forall (Decoder.quiet "X") (Decoder.trace run.2) ∧
  Forall (Decoder.quiet "Z") (Decoder.trace run.2) ∧
  run.1 = Ok (∅, ∅).
Proof.
  destruct (full_loop_empty_defects (Toy.sample [] []) (Toy.decoder true)
              (Toy.decoder false) None () () [] [] eq_refl)
    as (HX & HZ & Hboth).
  split; [by apply HX|]. split; [by apply HZ|].
  apply Hboth; [done|done|apply toy_merges_empty..].
Defined.

(** A sample with two Z defects and no X defect: both passes decode "Z",
    neither touches "X", and both corrections flip the qubits between
    the two defects. *)
Example full_loop_toy_run :
  let run := Decoder.full_loop (Toy.sample [] [1; 4]) (Toy.decoder true)
               (Toy.decoder false) None (Decoder.initial ()) in
  let correction : gmap nat FlipCalculator.pauli :=
    {[ 1 := FlipCalculator.PauliZ; 2 := FlipCalculator.PauliZ;
       3 := FlipCalculator.PauliZ ]} in
  let flips : gmap string (gmap nat bool) :=
    {[ "X" := ∅; "Z" := {[ 1 := true; 2 := true; 3 := true ]} ]} in
  run.1 = Ok (correction, correction) ∧
  Decoder.trace run.2 =
    [ Decoder.Call Decoder.analytic Decoder.CMakeErrorGraph "Z";
      Decoder.Call Decoder.analytic Decoder.CMatchingGraph "Z";
      Decoder.Call Decoder.analytic Decoder.CMatching "Z";
      Decoder.Call Decoder.analytic Decoder.CCalculateQubitFlips "Z";
      Decoder.NetCall Decoder.analytic flips;
      Decoder.Call Decoder.simulated Decoder.CMakeErrorGraph "Z";
      Decoder.Call Decoder.simulated Decoder.CMatchingGraph "Z";
      Decoder.Call Decoder.simulated Decoder.CMatching "Z";
      Decoder.Call Decoder.simulated Decoder.CAnalyticPaths "Z";
      Decoder.Call Decoder.simulated Decoder.CCalculateQubitFlips "Z";
      Decoder.NetCall Decoder.simulated flips ].
Proof. split; by vm_compute. Qed.

(** The tuple assignment of the first loop, on what a decoder built for
    simulation returns.  With three defects the graph yields three
    items and the assignment raises [ValueError]; with two defects it
    yields two, the assignment succeeds, and the run goes on to pass a
    node where a graph is expected. *)
Example full_loop_unpacks_three_nodes :
  let run := Decoder.full_loop (Toy.sample [] [1; 4; 6]) (Toy.decoder true)
               (Toy.decoder true) None (Decoder.initial ()) in
  run.1 = Raise ValueError ∧
  Decoder.trace run.2 =
    [ Decoder.Call Decoder.analytic Decoder.CMakeErrorGraph "Z" ].
Proof. split; by vm_compute. Qed.

Example full_loop_unpacks_two_nodes :
  let run := Decoder.full_loop (Toy.sample [] [1; 4]) (Toy.decoder true)
               (Toy.decoder true) None (Decoder.initial ()) in
  run.1 = Raise TypeError ∧
  Decoder.trace run.2 =
    [ Decoder.Call Decoder.analytic Decoder.CMakeErrorGraph "Z";
      Decoder.Call Decoder.analytic Decoder.CMatchingGraph "Z" ].
Proof. split; by vm_compute. Qed.

(** ** The flip calculator keeps parities *)

Section FlipFacts.

Import FlipCalculator.

Context {node qubit : Type} `{Countable node} `{Countable qubit}.

Implicit Types (m : gmap qubit bool) (chain : list qubit) (q : qubit).

Lemma flipped_toggle m q q' :
  flipped (toggle m q) q' =
  if decide (q = q') then negb (flipped m q') else flipped m q'.
Proof.
  unfold flipped, toggle. case_decide as Hq.
  - subst. by rewrite lookup_insert_eq.
  - by rewrite lookup_insert_ne.
Qed.

Lemma touches_cons q chain chains :
  touches q (chain :: chains) = touches q [chain] + touches q chains.
Proof.
  unfold touches; simpl. rewrite app_nil_r, filter_app. apply length_app.
Qed.

(** A chain flips the bit of a qubit when it touches it an odd number
    of times. *)
Lemma flipped_apply_chain chain : ∀ m q,
  flipped (apply_chain m chain) q = xorb (flipped m q) (Nat.odd (touches q [chain])).
Proof.
  unfold apply_chain, touches; simpl. setoid_rewrite app_nil_r.
  induction chain as [|x chain IH]; intros m q; simpl.
  - by rewrite xorb_false_r.
  - rewrite IH, flipped_toggle. rewrite filter_cons.
    destruct (decide (x = q)) as [->|Hx]; simpl; [|done].
    rewrite Nat.odd_succ, <-Nat.negb_odd.
    by destruct (flipped m q), (Nat.odd _).
Qed.

(** When every matched pair has its chain, the accumulation XORs the
    parity of each qubit's touches into the starting map. *)
Lemma accumulate_chains (matches : list (node * node))
    (paths : gmap (node * node) (list qubit)) chains :
  Forall2 (λ p chain, paths !! p = Some chain) matches chains →
  ∀ m, ∃ m', accumulate matches paths m = Ok m' ∧
    ∀ q, flipped m' q = xorb (flipped m q) (Nat.odd (touches q chains)).
Proof.
  induction 1 as [|p chain matches chains Hp _ IH]; intros m; simpl.
  - exists m. split; [done|]. intros q. by rewrite xorb_false_r.
  - rewrite Hp. destruct (IH (apply_chain m chain)) as (m' & -> & Hm').
    exists m'. split; [done|]. intros q.
    rewrite Hm', flipped_apply_chain, (touches_cons q chain chains), Nat.odd_add.
    by rewrite xorb_assoc.
Qed.

(** A matched pair without a chain stops the accumulation. *)
Lemma accumulate_missing (matches : list (node * node))
    (paths : gmap (node * node) (list qubit)) p m :
  p ∈ matches → paths !! p = None → accumulate matches paths m = Raise KeyError.
Proof.
  intros Hin Hp. revert m.
  induction matches as [|p' matches IH]; intros m; [by apply elem_of_nil in Hin|].
  simpl. destruct (paths !! p') as [chain|] eqn:Hp'; [|done].
  apply elem_of_cons in Hin as [->|Hin]; [congruence|]. by apply IH.
Qed.

(** C6: the flip map of [calculate_qubit_flips] holds, for every qubit,
    the parity of the number of times the matched pairs' chains touch
    it: a qubit touched an even number of times is not flipped, one
    touched an odd number of times is; and a chain applied twice to any
    flip map leaves every qubit's bit as it was. *)
Theorem calculate_qubit_flips_parity (matches : list (node * node))
    (paths : gmap (node * node) (list qubit)) (error_key : string)
    (chains : list (list qubit)) :
  Forall2 (λ p chain, paths !! p = Some chain) matches chains →
  (∃ m, calculate_qubit_flips matches paths error_key = Ok m ∧
        ∀ q, flipped m q = Nat.odd (touches q chains)) ∧
  (∀ m chain q, flipped (apply_chain (apply_chain m chain) chain) q = flipped m q).
Proof.
  intros Hchains. split.
  - destruct (accumulate_chains matches paths chains Hchains ∅) as (m & Hm & Hq).
    exists m. split; [done|]. intros q. rewrite Hq. unfold flipped at 1.
    by rewrite lookup_empty.
  - intros m chain q. rewrite !flipped_apply_chain.
    by destruct (flipped m q), (Nat.odd _).
Qed.

End FlipFacts.

(** Two matched pairs whose chains share qubit 1: it is touched twice
    and ends up unflipped, qubits 0 and 2 are flipped. *)
Lemma calculate_qubit_flips_parity_line :
  (∃ m : gmap nat bool,
     FlipCalculator.calculate_qubit_flips [(0, 2); (1, 3)]
       (Toy.chains [(0, 2); (1, 3)]) "X" = Ok m ∧
     ∀ q, FlipCalculator.flipped m q =
          Nat.odd (FlipCalculator.touches q [[0; 1]; [1; 2]])) ∧
  (∀ (m : gmap nat bool) chain q,
     FlipCalculator.flipped
       (FlipCalculator.apply_chain (FlipCalculator.apply_chain m chain) chain) q =
     FlipCalculator.flipped m q).
Proof.
  apply (calculate_qubit_flips_parity [(0, 2); (1, 3)]
           (Toy.chains [(0, 2); (1, 3)]) "X" [[0; 1]; [1; 2]]).
  repeat constructor.
Defined.

Example calculate_qubit_flips_line :
  FlipCalculator.calculate_qubit_flips [(0, 2); (1, 3)]
    (Toy.chains [(0, 2); (1, 3)]) "X"
  = Ok {[ 0 := true; 1 := false; 2 := true ]}.
Proof. by vm_compute. Qed.

(** The same chain given for two matched pairs cancels. *)
Example calculate_qubit_flips_twice :
  FlipCalculator.calculate_qubit_flips [(0, 2); (2, 0)]
    (Toy.chains [(0, 2); (2, 0)]) "X"
  = Ok {[ 0 := false; 1 := false ]}.
Proof. by vm_compute. Qed.

(** ** The logical error rate is a ratio *)

Section BenchmarkFacts.

Import Benchmarking.

Variable corrected_value : string → result Z.

(** Scaling the counts scales both tallies. *)
Lemma tally_scale k readout_strings expected : ∀ errors shots,
  tally corrected_value (scale k readout_strings) expected
    (Npos k * errors) (Npos k * shots) =
  match tally corrected_value readout_strings expected errors shots with
  | Ok (e, t) => Ok (Npos k * e, Npos k * t)%N
  | Raise ex => Raise ex
  end.
Proof.
  induction readout_strings as [|[readout count] rest IH]; intros errors shots;
    simpl; [done|].
  destruct (corrected_value readout) as [v|ex]; [|done].
  rewrite <-IH. f_equal; [|lia]. case_bool_decide; lia.
Qed.

Lemma Q2Qc_scale (k shots : positive) (errors : N) :
  Q2Qc (Qmake (Z.of_N (Npos k * errors)) (k * shots)) =
  Q2Qc (Qmake (Z.of_N errors) shots).
Proof.
  apply Q2Qc_eq_iff. unfold Qeq; simpl. lia.
Qed.

(** C5: multiplying every occurrence count of a histogram by the same
    positive factor leaves the result of [logical_error_rate] unchanged,
    whatever the expected value and the decoding pipeline. *)
Theorem logical_error_rate_scale (k : positive)
    (readout_strings : list (string * N)) (expected : Z) :
  logical_error_rate corrected_value (scale k readout_strings) expected =
  logical_error_rate corrected_value readout_strings expected.
Proof.
  unfold logical_error_rate.
  pose proof (tally_scale k readout_strings expected 0 0) as Hk.
  rewrite !N.mul_0_r in Hk. rewrite Hk.
  destruct (tally corrected_value readout_strings expected 0 0) as [[e [|t]]|ex];
    simpl; [done| |done].
  f_equal. apply Q2Qc_scale.
Qed.

End BenchmarkFacts.

(** Thirty shots read 0 and ten read 1, against an expected 0: a quarter
    of the shots are wrong, and still are when every count is doubled. *)
Example logical_error_rate_quarter :
  Benchmarking.logical_error_rate Toy.first_bit
    [("0 00000000 00000000", 30%N); ("1 00000000 00000000", 10%N)] 0
  = Ok (Q2Qc (Qmake 1 4)) ∧
  Benchmarking.logical_error_rate Toy.first_bit
    (Benchmarking.scale 2
       [("0 00000000 00000000", 30%N); ("1 00000000 00000000", 10%N)]) 0
  = Ok (Q2Qc (Qmake 1 4)).
Proof.
  split; (unfold Benchmarking.logical_error_rate; simpl; f_equal;
          apply Q2Qc_eq_iff; reflexivity).
Qed.

(** ** [full_loop]: the order of the decoder calls *)

Section ProtocolFacts.

Import Decoder Protocol.

Context {node MGraph Matches qubit flip Net Noise W Obj : Type}.
Context `{Countable qubit}.
Context `{!Iterable W node Obj}.

Abbreviation St := (St (node:=node) (qubit:=qubit) (flip:=flip) (W:=W)).
Abbreviation GraphDecoder :=
  (GraphDecoder (node:=node) (MGraph:=MGraph) (Matches:=Matches)
     (qubit:=qubit) (flip:=flip) (Net:=Net) (W:=W) (Obj:=Obj)).
Abbreviation event := (event (qubit:=qubit) (flip:=flip)).

Implicit Types (dec : GraphDecoder) (l : listref) (s : St).

(** *** The log of a loop body *)

Ltac outcome_call Hrun :=
  match type of Hrun with
  | context [make_error_graph ?dec ?l ?k ?env] =>
      destruct (make_error_graph dec l k env) as [[?|?] ?]
  | context [iterate ?v ?env] =>
      destruct (iterate v env) as [[[|? [|? [|? ?]]]|?] ?]
  | context [matching_graph ?dec ?r ?k ?env] =>
      destruct (matching_graph dec r k env) as [[?|?] ?]
  | context [matching ?dec ?g ?k ?env] =>
      destruct (matching dec g k env) as [[?|?] ?]
  | context [analytic_paths ?dec ?m ?k ?env] =>
      destruct (analytic_paths dec m k env) as [[?|?] ?]
  | context [calculate_qubit_flips ?dec ?m ?p ?k ?env] =>
      destruct (calculate_qubit_flips dec m p k env) as [[?|?] ?]
  end; simpl in Hrun.

Ltac outcome_done :=
  eexists; split; [simpl; rewrite <-?(assoc_L (++)); reflexivity|];
  split; [by eexists|];
  first [by intros [? [=]] | reflexivity].

Lemma analytic_body_outcome dec error_key l s r s' :
  analytic_body dec error_key l s = (r, s') →
  body_outcome analytic error_key l s r s'.
Proof.
  unfold analytic_body, truthy, call_make_error_graph, unpack2.
  unfold bind, deref, hand, invoke, external, ret, raise, body_outcome, decodes,
    contents.
  intros Hrun. case_bool_decide as Hne; simpl in Hrun.
  - repeat outcome_call Hrun; injection Hrun as <- <-; outcome_done.
  - injection Hrun as <- <-. exists []. by rewrite app_nil_r.
Qed.

Lemma simulated_body_outcome dec error_key l s r s' :
  simulated_body dec error_key l s = (r, s') →
  body_outcome simulated error_key l s r s'.
Proof.
  unfold simulated_body, truthy, call_make_error_graph, bind, deref, hand, invoke,
    external, ret, raise, body_outcome, decodes, contents.
  intros Hrun. case_bool_decide as Hne; simpl in Hrun.
  - repeat outcome_call Hrun; injection Hrun as <- <-; outcome_done.
  - injection Hrun as <- <-. exists []. by rewrite app_nil_r.
Qed.

Lemma block_decoder d error_key b :
  Forall (λ e : event, decoder_of e = d) (block d error_key b).
Proof. destruct d, b; simpl; by repeat constructor. Qed.

Lemma pass_log_decoder d bx bz (flips : gmap string (gmap qubit flip)) :
  Forall (λ e : event, decoder_of e = d) (pass_log d bx bz flips).
Proof.
  unfold pass_log. rewrite !Forall_app. split; [apply block_decoder|].
  split; [apply block_decoder|]. by apply Forall_singleton.
Qed.

(** *** The log of a pass *)

(** A pass decodes "X" when that list is not empty as the pass starts,
    and "Z" when that list is not empty once the body for "X" has
    run. *)
Lemma decoder_pass_outcome d dec body s r s' :
  (∀ k l s r s', body k l s = (r, s') → body_outcome d k l s r s') →
  decoder_pass d dec body s = (r, s') →
  ∃ flips evs,
    let log := pass_log d (decodes X_errors s)
                 (decodes Z_errors (body "X" X_errors s).2) flips in
    trace s' = trace s ++ evs ∧
    evs `prefix_of` log ∧
    ((∃ a, r = Ok a) → evs = log).
Proof.
  intros Hbody Hrun. rewrite decoder_pass_unfold in Hrun.
  destruct (body "X" X_errors s) as [rx s1] eqn:HX. apply Hbody in HX as HX'.
  destruct HX' as (ex & Htx & Hpx & Hokx). simpl.
  destruct rx as [fx|e]; cycle 1.
  { injection Hrun as <- <-. exists ∅, ex. split; [done|].
    split; [by apply prefix_app_r|]. by intros [? [=]]. }
  destruct (body "Z" Z_errors s1) as [rz s2] eqn:HZ. apply Hbody in HZ.
  destruct HZ as (ez & Htz & Hpz & Hokz).
  rewrite (Hokx (ex_intro _ fx eq_refl)) in Htx.
  destruct rz as [fz|e]; cycle 1.
  { injection Hrun as <- <-. eexists ∅, (_ ++ ez).
    split; [by rewrite Htz, Htx, <-(assoc_L (++))|].
    split; [by apply prefix_app, prefix_app_r|]. by intros [? [=]]. }
  rewrite (Hokz (ex_intro _ fz eq_refl)) in Htz.
  unfold invoke in Hrun.
  destruct (net_qubit_flips dec fx fz (expose s2)) as [rn envn].
  injection Hrun as <- <-. eexists (<["Z" := fz]> (<["X" := fx]> ∅)), _.
  split; [simpl; by rewrite Htz, Htx, <-!(assoc_L (++))|].
  split; done.
Qed.

(** A list that was handed to no collaborator is as it was after the
    loop body of the other list. *)
Lemma analytic_body_other_Z dec (s : St) :
  (handed s).2 = false →
  (defects (analytic_body dec "X" X_errors s).2).2 = (defects s).2.
Proof.
  intros Hh.
  apply (analytic_body_preserves
           (λ s', (handed s').2 = false ∧ (defects s').2 = (defects s).2)
           dec "X" X_errors); [|done].
  split; [|split].
  - intros c s' env [Hh' Hd]; simpl. by rewrite Hh'.
  - intros s' env [Hh' Hd]; simpl. by rewrite Hh'.
  - by intros s' [Hh' Hd].
Qed.

(** *** The log of a run *)

(** The log of every run of [full_loop], once the sample is known:
    either the first pass was cut short and the second decoder was never
    called, or the first pass is complete and the second follows. *)
Lemma full_loop_log (sample : option Noise → M W (list node * list node))
    (dec_sim dec_ana : GraphDecoder) noise w X Z w' r st :
  sample noise w = (Ok (X, Z), w') →
  full_loop sample dec_sim dec_ana noise (initial w) = (r, st) →
  let first := decoder_pass analytic dec_ana (analytic_body dec_ana)
                 (sampled w' X Z) in
  let s1 := first.2 in
  let s2 := (simulated_body dec_sim "X" X_errors s1).2 in
  ∃ fa fs,
    ((∃ e, first.1 = Raise e ∧ r = Raise e ∧ st = s1) ∧
     trace s1 `prefix_of`
       pass_log analytic (bool_decide (X ≠ [])) (bool_decide (Z ≠ [])) fa) ∨
    ((∃ a, first.1 = Ok a) ∧
     trace s1 =
       pass_log analytic (bool_decide (X ≠ [])) (bool_decide (Z ≠ [])) fa ∧
     ∃ ts,
       trace st = trace s1 ++ ts ∧
       ts `prefix_of`
         pass_log simulated (decodes X_errors s1) (decodes Z_errors s2) fs ∧
       ((∃ v, r = Ok v) →
        ts = pass_log simulated (decodes X_errors s1) (decodes Z_errors s2) fs)).
Proof.
  intros Hs Hrun first s1 s2.
  rewrite (full_loop_sampled _ _ _ _ _ _ _ _ Hs) in Hrun.
  unfold bind at 1 in Hrun. fold first in Hrun.
  destruct first as [ra s1'] eqn:Ha. simpl in s1. subst s1.
  apply (decoder_pass_outcome _ _ _ _ _ _ (analytic_body_outcome dec_ana)) in Ha.
  destruct Ha as (fa & ea & Hta & Hpa & Hoka). simpl in Hta.
  assert (decodes Z_errors (analytic_body dec_ana "X" X_errors (sampled w' X Z)).2
          = bool_decide (Z ≠ [])) as HZ.
  { unfold decodes, contents. by rewrite analytic_body_other_Z. }
  rewrite HZ in Hpa, Hoka.
  change (decodes X_errors (sampled w' X Z)) with (bool_decide (X ≠ []))
    in Hpa, Hoka.
  destruct ra as [a|e]; cycle 1.
  { injection Hrun as <- <-. exists fa, ∅. left.
    split; [by exists e|]. by rewrite Hta. }
  rewrite (Hoka (ex_intro _ a eq_refl)) in Hta.
  unfold bind at 1 in Hrun.
  destruct (decoder_pass simulated dec_sim _ s1') as [rs s3] eqn:Hsim.
  apply (decoder_pass_outcome _ _ _ _ _ _ (simulated_body_outcome dec_sim)) in Hsim.
  destruct Hsim as (fs & es & Hts & Hps & Hoks).
  exists fa, fs. right. split; [by exists a|]. split; [done|].
  exists es. split.
  - destruct rs; injection Hrun as <- <-; simpl; by rewrite Hts.
  - split; [exact Hps|]. intros [v Hv]. apply Hoks.
    destruct rs; [by eexists|]. by injection Hrun as <- <-.
Qed.

(** X1: the decoder calls of a run of [full_loop] follow one fixed
    order.  The first pass goes through "X" then "Z" with the analytic
    decoder, each list that is not empty in the sample through
    [make_error_graph], [matching_graph], [matching],
    [calculate_qubit_flips], and ends with [net_qubit_flips]; the
    second pass does the same with the simulated decoder, with
    [analytic_paths] before [calculate_qubit_flips], for each list that
    is not empty when its iteration starts: "X" as the first pass left
    it, "Z" as the second loop's iteration for "X" left it.  A list
    that is empty in the sample is decoded in neither pass.  The log of
    a run is a prefix of that sequence, and all of it when the run
    returns. *)
Theorem full_loop_call_order (sample : option Noise → M W (list node * list node))
    (decoder_simulated decoder_analytic : GraphDecoder) (noise_model : option Noise)
    (w w' : W) (X Z : list node) :
  sample noise_model w = (Ok (X, Z), w') →
  let run := full_loop sample decoder_simulated decoder_analytic noise_model
               (initial w) in
  let s1 := (decoder_pass analytic decoder_analytic
               (analytic_body decoder_analytic) (sampled w' X Z)).2 in
  let s2 := (simulated_body decoder_simulated "X" X_errors s1).2 in
  ∃ fa fs,
    let log :=
      pass_log analytic (bool_decide (X ≠ [])) (bool_decide (Z ≠ [])) fa ++
      pass_log simulated (decodes X_errors s1) (decodes Z_errors s2) fs in
    trace run.2 `prefix_of` log ∧
    ((∃ v, run.1 = Ok v) → trace run.2 = log) ∧
    (X = [] → decodes X_errors s1 = false) ∧
    (Z = [] → decodes Z_errors s2 = false).
Proof.
  intros Hs run s1 s2. destruct run as [r st] eqn:Hrun. subst run.
  destruct (full_loop_log _ _ _ _ _ _ _ _ _ _ Hs Hrun) as (fa & fs & Hlog).
  fold s1 in Hlog. fold s2 in Hlog.
  exists fa, fs. simpl. split; [|split; [|split]].
  - destruct Hlog as [[(e & _ & _ & ->) Hp]|(_ & Hta & ts & -> & Hp & _)].
    + by apply prefix_app_r.
    + rewrite Hta. by apply prefix_app.
  - intros [v ->].
    destruct Hlog as [[(e & _ & [=] & _) _]|(_ & Hta & ts & -> & _ & Hok)].
    rewrite Hta. f_equal. apply Hok. by exists v.
  - intros ->. unfold decodes, contents.
    assert ((handed s1).1 = false ∧ (defects s1).1 = [] ∧
            Forall (quiet "X") (trace s1)) as (_ & -> & _); [|done].
    by apply (decoder_pass_quiet_X analytic decoder_analytic _
                (analytic_loop_body decoder_analytic)).
  - intros ->. unfold decodes, contents.
    assert ((handed s2).2 = false ∧ (defects s2).2 = []) as (_ & ->); [|done].
    apply (simulated_body_preserves
             (λ s, (handed s).2 = false ∧ (defects s).2 = [])
             decoder_simulated "X" X_errors).
    + split; [|split].
      * intros c s env [Hh Hd]; simpl. by rewrite Hh.
      * intros s env [Hh Hd]; simpl. by rewrite Hh.
      * by intros s [Hh Hd].
    + assert ((handed s1).2 = false ∧ (defects s1).2 = [] ∧
              Forall (quiet "Z") (trace s1)) as (? & ? & _); [|done].
      by apply (decoder_pass_quiet_Z analytic decoder_analytic _
                  (analytic_loop_body decoder_analytic)).
Qed.

(** X2: the simulated decoder is called only after the analytic pass
    has returned: a run whose log holds a call of the simulated decoder
    has drawn its sample, its analytic pass has returned a value, the
    log of that pass ends with the analytic [net_qubit_flips], and
    every call after it goes to the simulated decoder.  So if the
    analytic pass raises, were it in [net_qubit_flips] itself, the
    simulated decoder is never called. *)
Theorem full_loop_simulated_after_analytic
    (sample : option Noise → M W (list node * list node))
    (decoder_simulated decoder_analytic : GraphDecoder) (noise_model : option Noise)
    (w : W) (e : event) :
  let run := full_loop sample decoder_simulated decoder_analytic noise_model
               (initial w) in
  e ∈ trace run.2 → decoder_of e = simulated →
  ∃ X Z w' a s1 ta fa ts,
    sample noise_model w = (Ok (X, Z), w') ∧
    decoder_pass analytic decoder_analytic (analytic_body decoder_analytic)
      (sampled w' X Z) = (Ok a, s1) ∧
    trace s1 = ta ++ [NetCall analytic fa] ∧
    trace run.2 = trace s1 ++ ts ∧
    Forall (λ e, decoder_of e = analytic) ta ∧
    Forall (λ e, decoder_of e = simulated) ts.
Proof.
  intros run. destruct run as [r st] eqn:Hrun. subst run. simpl.
  destruct (sample noise_model w) as [[[X Z]|ex] w'] eqn:Hs; cycle 1.
  { rewrite (full_loop_not_sampled _ _ _ _ _ _ _ Hs) in Hrun.
    injection Hrun as <- <-. simpl. by intros ?%elem_of_nil. }
  destruct (full_loop_log _ _ _ _ _ _ _ _ _ _ Hs Hrun) as (fa & fs & Hlog).
  intros He Hd.
  destruct Hlog as [[(ex & _ & _ & ->) [k Hp]]|([a Ha] & Hta & ts & Hts & [k Hp] & _)].
  - pose proof (pass_log_decoder analytic (bool_decide (X ≠ []))
                  (bool_decide (Z ≠ [])) fa) as Hall.
    rewrite Hp, Forall_app in Hall. destruct Hall as [Hall _].
    rewrite Forall_forall in Hall. specialize (Hall e He). congruence.
  - destruct (decoder_pass analytic decoder_analytic _ (sampled w' X Z))
      as [ra s1] eqn:Hpass. simpl in *. subst ra.
    exists X, Z, w', a, s1,
      (block analytic "X" (bool_decide (X ≠ [])) ++
       block analytic "Z" (bool_decide (Z ≠ []))), fa, ts.
    split; [done|]. split; [done|].
    split; [rewrite Hta; unfold pass_log; by rewrite <-!(assoc_L (++))|].
    split; [done|].
    split; [rewrite Forall_app; split; apply block_decoder|].
    match type of Hp with
    | pass_log simulated ?bx ?bz fs = _ =>
        pose proof (pass_log_decoder simulated bx bz fs) as Hall
    end.
    rewrite Hp, Forall_app in Hall. by destruct Hall.
Qed.

(** *** Collaborators that leave the lists alone *)

Lemma absorb_keeps (s : St) (env : Env W node) tr :
  env.2 = (expose s).2 → defects (absorb s env tr) = defects s.
Proof.
  destruct s as [w [X Z] [[] []] t], env as [w1 [X1 Z1]]; simpl;
    intros [= -> ->]; reflexivity.
Qed.

Lemma preserves_invoke_keeps {A} D e (f : M (Env W node) A) :
  (∀ env, (f env).2.2 = env.2) →
  preserves (λ s : St, defects s = D) (invoke e f).
Proof.
  intros Hf s Hs. unfold invoke. specialize (Hf (expose s)).
  destruct (f (expose s)) as [r env]. cbn [fst snd] in Hf |- *.
  by rewrite absorb_keeps.
Qed.

Lemma preserves_external_keeps {A} D (f : M (Env W node) A) :
  (∀ env, (f env).2.2 = env.2) →
  preserves (λ s : St, defects s = D) (external f).
Proof.
  intros Hf s Hs. unfold external. specialize (Hf (expose s)).
  destruct (f (expose s)) as [r env]. cbn [fst snd] in Hf |- *.
  by rewrite absorb_keeps.
Qed.

Lemma preserves_unpack2_keeps D (v : Obj) :
  iteration_keeps_lists →
  preserves (λ s : St, defects s = D) (unpack2 v).
Proof.
  intros Hit. unfold unpack2.
  apply preserves_bind; [by apply preserves_external_keeps|].
  intros [|a [|b [|c items]]];
    first [apply preserves_raise | apply preserves_ret].
Qed.

Ltac keep_step :=
  first
    [ apply preserves_ret
    | apply preserves_raise
    | apply preserves_deref
    | apply preserves_invoke_keeps; intros; auto
    | apply preserves_unpack2_keeps; assumption
    | apply preserves_hand; intros; auto
    | apply preserves_bind; [|intros] ].

Lemma analytic_body_keeps dec error_key l D :
  keeps_lists dec → iteration_keeps_lists →
  preserves (λ s : St, defects s = D) (analytic_body dec error_key l).
Proof.
  intros (Hmeg & Hmg & Hm & Hp & Hc & Hn) Hit.
  unfold analytic_body, truthy, call_make_error_graph.
  apply preserves_bind; [repeat keep_step|]. intros [|]; repeat keep_step.
Qed.

Lemma simulated_body_keeps dec error_key l D :
  keeps_lists dec →
  preserves (λ s : St, defects s = D) (simulated_body dec error_key l).
Proof.
  intros (Hmeg & Hmg & Hm & Hp & Hc & Hn).
  unfold simulated_body, truthy, call_make_error_graph.
  apply preserves_bind; [repeat keep_step|]. intros [|]; repeat keep_step.
Qed.

Lemma decoder_pass_keeps d dec body D :
  keeps_lists dec →
  (∀ k l, preserves (λ s : St, defects s = D) (body k l)) →
  preserves (λ s : St, defects s = D) (decoder_pass d dec body).
Proof.
  intros (_ & _ & _ & _ & _ & Hn) Hbody s Hs. rewrite decoder_pass_unfold.
  pose proof (Hbody "X" X_errors s Hs) as H1.
  destruct (body "X" X_errors s) as [[fx|e] s1]; simpl in *; [|done].
  pose proof (Hbody "Z" Z_errors s1 H1) as H2.
  destruct (body "Z" Z_errors s1) as [[fz|e] s2]; simpl in *; [|done].
  by apply preserves_invoke_keeps.
Qed.

(** X3: when the methods of both decoders and the iteration of the
    objects they return leave the defect lists as they are, both passes
    decode exactly the error types that have defects in the sample, and
    the lists end as they were sampled, whether the run returns or
    raises. *)
Theorem full_loop_same_keys (sample : option Noise → M W (list node * list node))
    (decoder_simulated decoder_analytic : GraphDecoder) (noise_model : option Noise)
    (w w' : W) (X Z : list node) :
  sample noise_model w = (Ok (X, Z), w') →
  keeps_lists decoder_analytic → keeps_lists decoder_simulated →
  iteration_keeps_lists →
  let run := full_loop sample decoder_simulated decoder_analytic noise_model
               (initial w) in
  defects run.2 = (X, Z) ∧
  ∃ fa fs,
    let log :=
      pass_log analytic (bool_decide (X ≠ [])) (bool_decide (Z ≠ [])) fa ++
      pass_log simulated (bool_decide (X ≠ [])) (bool_decide (Z ≠ [])) fs in
    trace run.2 `prefix_of` log ∧
    ((∃ v, run.1 = Ok v) → trace run.2 = log).
Proof.
  intros Hs Hka Hks Hit run.
  assert (preserves (λ s : St, defects s = (X, Z))
            (decoder_pass analytic decoder_analytic
               (analytic_body decoder_analytic))) as Hpa.
  { apply decoder_pass_keeps; [done|]. intros k l. by apply analytic_body_keeps. }
  assert (preserves (λ s : St, defects s = (X, Z))
            (decoder_pass simulated decoder_simulated
               (simulated_body decoder_simulated))) as Hps.
  { apply decoder_pass_keeps; [done|]. intros k l. by apply simulated_body_keeps. }
  split.
  - subst run. rewrite (full_loop_sampled _ _ _ _ _ _ _ _ Hs).
    by apply (two_passes_preserve (λ s : St, defects s = (X, Z))).
  - destruct run as [r st] eqn:Hrun. subst run.
    destruct (full_loop_log _ _ _ _ _ _ _ _ _ _ Hs Hrun) as (fa & fs & Hlog).
    pose proof (Hpa (sampled w' X Z) eq_refl) as Hd1.
    pose proof (simulated_body_keeps decoder_simulated "X" X_errors (X, Z) Hks
                  _ Hd1) as Hd2.
    unfold decodes, contents in Hlog. rewrite Hd1, Hd2 in Hlog. simpl in Hlog.
    exists fa, fs. simpl. split.
    + destruct Hlog as [[(e & _ & _ & ->) Hp]|(_ & Hta & ts & -> & Hp & _)].
      * by apply prefix_app_r.
      * rewrite Hta. by apply prefix_app.
    + intros [v ->].
      destruct Hlog as [[(e & _ & [=] & _) _]|(_ & Hta & ts & -> & _ & Hok)].
      rewrite Hta. f_equal. apply Hok. by exists v.
Qed.

(** *** The tuple assignment of the first loop *)



(** With a decoder that never raises a loop body returns. *)
Lemma analytic_body_returns dec error_key l s :
  never_raises dec → returns_pair dec →
  ∃ f s', analytic_body dec error_key l s = (Ok f, s').
Proof.
  intros (Hmeg & Hmg & Hm & _ & Hc & _) Hpair.
  unfold analytic_body, truthy, call_make_error_graph, unpack2.
  unfold bind, deref, hand, invoke, external, ret, raise.
  case_bool_decide; [|by eexists _, _].
  match goal with
  | |- context [make_error_graph dec l error_key ?env] =>
      destruct (Hmeg l error_key env) as (v & env1 & Hv)
  end.
  rewrite Hv; simpl.
  match goal with
  | |- context [iterate v ?env] =>
      destruct (Hpair _ _ _ _ _ Hv env) as (a & b & env2 & ->)
  end; simpl.
  match goal with
  | |- context [matching_graph dec a error_key ?env] =>
      destruct (Hmg a error_key env) as (mg & env3 & ->)
  end; simpl.
  match goal with
  | |- context [matching dec mg error_key ?env] =>
      destruct (Hm mg error_key env) as (m & env4 & ->)
  end; simpl.
  match goal with
  | |- context [calculate_qubit_flips dec m b error_key ?env] =>
      destruct (Hc m b error_key env) as (f & env5 & ->)
  end; simpl.
  by eexists _, _.
Qed.

Lemma simulated_body_returns dec error_key l s :
  never_raises dec →
  ∃ f s', simulated_body dec error_key l s = (Ok f, s').
Proof.
  intros (Hmeg & Hmg & Hm & Hp & Hc & _).
  unfold simulated_body, truthy, call_make_error_graph.
  unfold bind, deref, hand, invoke, external, ret, raise.
  case_bool_decide; [|by eexists _, _].
  match goal with
  | |- context [make_error_graph dec l error_key ?env] =>
      destruct (Hmeg l error_key env) as (v & env1 & ->)
  end; simpl.
  match goal with
  | |- context [matching_graph dec v error_key ?env] =>
      destruct (Hmg v error_key env) as (mg & env3 & ->)
  end; simpl.
  match goal with
  | |- context [matching dec mg error_key ?env] =>
      destruct (Hm mg error_key env) as (m & env4 & ->)
  end; simpl.
  match goal with
  | |- context [analytic_paths dec m error_key ?env] =>
      destruct (Hp m error_key env) as (p & env5 & ->)
  end; simpl.
  match goal with
  | |- context [calculate_qubit_flips dec m p error_key ?env] =>
      destruct (Hc m p error_key env) as (f & env6 & ->)
  end; simpl.
  by eexists _, _.
Qed.

Lemma decoder_pass_returns d dec body s :
  never_raises dec →
  (∀ k l s, ∃ f s', body k l s = (Ok f, s')) →
  ∃ v s', decoder_pass d dec body s = (Ok v, s').
Proof.
  intros Hnr Hbody. rewrite decoder_pass_unfold.
  destruct (Hbody "X" X_errors s) as (fx & s1 & ->).
  destruct (Hbody "Z" Z_errors s1) as (fz & s2 & ->).
  destruct Hnr as (_ & _ & _ & _ & _ & Hnet). unfold invoke.
  destruct (Hnet fx fz (expose s2)) as (v & w1 & ->). by eexists _, _.
Qed.

(** X5: the harness adds one failure of its own, the unpacking: when
    the sample is drawn, no decoder method raises and the analytic
    decoder's [make_error_graph] returns a 2-tuple, [full_loop] returns;
    in particular [flips["X"]] and [flips["Z"]] never raise
    [KeyError]. *)
Theorem full_loop_returns (sample : option Noise → M W (list node * list node))
    (decoder_simulated decoder_analytic : GraphDecoder) (noise_model : option Noise)
    (w w' : W) (X Z : list node) :
  sample noise_model w = (Ok (X, Z), w') →
  never_raises decoder_analytic → returns_pair decoder_analytic →
  never_raises decoder_simulated →
  ∃ v st,
    full_loop sample decoder_simulated decoder_analytic noise_model (initial w)
      = (Ok v, st).
Proof.
  intros Hs Ha Hpair Hsim. rewrite (full_loop_sampled _ _ _ _ _ _ _ _ Hs).
  unfold bind at 1.
  destruct (decoder_pass_returns analytic decoder_analytic
              (analytic_body decoder_analytic) (sampled w' X Z) Ha)
    as (a & s1 & ->).
  { intros k l s. by apply analytic_body_returns. }
  unfold bind at 1.
  destruct (decoder_pass_returns simulated decoder_simulated
              (simulated_body decoder_simulated) s1 Hsim)
    as (b & s2 & ->).
  { intros k l s. by apply simulated_body_returns. }
  by eexists _, _.
Qed.

End ProtocolFacts.

(** The stand-in decoders keep the lists and raise nothing of their own
    on well-formed arguments. *)
Lemma toy_keeps_lists simulation : Protocol.keeps_lists (Toy.decoder simulation).
Proof.
  repeat split; intros; simpl; try done.
  - by destruct g.
  - by destruct p.
Qed.

Lemma toy_iteration_keeps_lists :
  Protocol.iteration_keeps_lists (W:=unit) (node:=nat) (Obj:=Toy.obj).
Proof. intros v env. by destruct v. Qed.

Lemma stub_never_raises pair : Protocol.never_raises (Stub.decoder pair).
Proof. repeat split; intros; by eexists _, _. Qed.

Lemma stub_returns_pair : Protocol.returns_pair (Stub.decoder true).
Proof.
  intros l k env v env' Hcall env1. injection Hcall as <- _. by eexists _, _, _.
Qed.


(** The stand-in decoders on a sample with two Z defects. *)
Lemma full_loop_call_order_toy :
  let run := Decoder.full_loop (Toy.sample [] [1; 4]) (Toy.decoder true)
               (Toy.decoder false) None (Decoder.initial ()) in
  ∃ fa fs,
    Decoder.trace run.2 =
      Protocol.pass_log Decoder.analytic false true fa ++
      Protocol.pass_log Decoder.simulated false true fs.
Proof.
  destruct (full_loop_call_order (Toy.sample [] [1; 4]) (Toy.decoder true)
              (Toy.decoder false) None () () [] [1; 4] eq_refl)
    as (fa & fs & _ & Hok & _).
  exists fa, fs. apply Hok. eexists. by vm_compute.
Defined.

Lemma full_loop_simulated_after_analytic_toy :
  let run := Decoder.full_loop (Toy.sample [] [1; 4]) (Toy.decoder true)
               (Toy.decoder false) None (Decoder.initial ()) in
  ∃ a s1 ta fa ts,
    Decoder.decoder_pass Decoder.analytic (Toy.decoder false)
      (Decoder.analytic_body (Toy.decoder false)) (Decoder.sampled () [] [1; 4])
      = (Ok a, s1) ∧
    Decoder.trace s1 = ta ++ [Decoder.NetCall Decoder.analytic fa] ∧
    Decoder.trace run.2 = Decoder.trace s1 ++ ts ∧
    Forall (λ e, Protocol.decoder_of e = Decoder.analytic) ta ∧
    Forall (λ e, Protocol.decoder_of e = Decoder.simulated) ts.
Proof.
  destruct (full_loop_simulated_after_analytic (Toy.sample [] [1; 4])
              (Toy.decoder true) (Toy.decoder false) None ()
              (Decoder.Call Decoder.simulated Decoder.CMakeErrorGraph "Z"))
    as (X & Z & w' & a & s1 & ta & fa & ts & Hs & Hpass & Hrest).
  - vm_compute. repeat constructor.
  - reflexivity.
  - injection Hs as <- <- <-. by exists a, s1, ta, fa, ts.
Defined.

Lemma full_loop_same_keys_toy :
  let run := Decoder.full_loop (Toy.sample [] [1; 4]) (Toy.decoder true)
               (Toy.decoder false) None (Decoder.initial ()) in
  Decoder.defects run.2 = ([], [1; 4]) ∧
  ∃ fa fs,
    Decoder.trace run.2 =
      Protocol.pass_log Decoder.analytic false true fa ++
      Protocol.pass_log Decoder.simulated false true fs.
Proof.
  destruct (full_loop_same_keys (Toy.sample [] [1; 4]) (Toy.decoder true)
              (Toy.decoder false) None () () [] [1; 4] eq_refl
              (toy_keeps_lists false) (toy_keeps_lists true)
              toy_iteration_keeps_lists)
    as (Hd & fa & fs & _ & Hok).
  split; [exact Hd|]. exists fa, fs. apply Hok. eexists. by vm_compute.
Defined.


Lemma full_loop_returns_stub :
  ∃ v st,
    Decoder.full_loop (Stub.sample [2] [3]) (Stub.decoder false) (Stub.decoder true)
      None (Decoder.initial ()) = (Ok v, st).
Proof.
  exact (full_loop_returns (Stub.sample [2] [3]) (Stub.decoder false)
           (Stub.decoder true) None () () [2] [3] eq_refl
           (stub_never_raises true) stub_returns_pair (stub_never_raises false)).
Defined.

(** A decoder that empties the list it was handed, in a later method:
    the first pass decodes "Z", the second finds the list empty and
    only merges. *)
Example full_loop_cleared_list :
  let run := Decoder.full_loop (Stub.sample [] [3]) (Stub.decoder false)
               Stub.clearing None (Decoder.initial ()) in
  run.1 = Ok ((), ()) ∧
  Decoder.defects run.2 = ([], []) ∧
  Decoder.trace run.2 =
    [ Decoder.Call Decoder.analytic Decoder.CMakeErrorGraph "Z";
      Decoder.Call Decoder.analytic Decoder.CMatchingGraph "Z";
      Decoder.Call Decoder.analytic Decoder.CMatching "Z";
      Decoder.Call Decoder.analytic Decoder.CCalculateQubitFlips "Z";
      Decoder.NetCall Decoder.analytic {[ "X" := ∅; "Z" := ∅ ]};
      Decoder.NetCall Decoder.simulated {[ "X" := ∅; "Z" := ∅ ]} ].
Proof. repeat split; by vm_compute. Qed.

(** ** One stabilization round *)

Section RoundFacts.

Import Circuit Readout.

Variable measurements : list creg.

Lemma measured_app xs ys : measured (xs ++ ys) = measured xs ++ measured ys.
Proof. apply omap_app. Qed.

Lemma measured_round c :
  8 ≤ creg_size c → measured (round_instrs c) = round_measures c.
Proof. intros Hc. by rewrite round_instrs_fits. Qed.

Lemma measured_rounds (qc : QuantumCircuit) cs :
  Forall (fits qc) cs →
  measured (flat_map round_instrs cs) = flat_map round_measures cs.
Proof.
  induction 1 as [|c cs [_ Hc] _ IH]; [done|].
  change (flat_map round_instrs (c :: cs))
    with (round_instrs c ++ flat_map round_instrs cs).
  by rewrite measured_app, measured_round, IH.
Qed.

Lemma rounds_length (qc : QuantumCircuit) cs :
  Forall (fits qc) cs →
  length (flat_map round_instrs cs) = 50 * length cs.
Proof.
  induction 1 as [|c cs [_ Hc] _ IH]; [done|].
  change (flat_map round_instrs (c :: cs))
    with (round_instrs c ++ flat_map round_instrs cs).
  rewrite length_app, round_instrs_length, IH by done. simpl length. lia.
Qed.

(** X6: [stabilize(circ, i)] changes no circuit but [circ], keeps its
    registers and only adds to its instructions.  On a circuit that
    holds [data], [mx] and [mz]: when [measurements[i]] exists (a
    negative [i] counts from the end of the list) and is an eight-bit
    register of the circuit, the call returns after storing one round
    of 50 instructions; when it does not exist, the call raises
    [IndexError] only after the 33 gate and barrier instructions of the
    round have been stored, so the circuit is left with a partial
    round.  On a circuit that lacks one of the three registers the call
    raises [CircuitError] within its first four gates. *)
Theorem stabilize_effect (σ : gmap ref QuantumCircuit) (circ : ref)
    (c : QuantumCircuit) (i : Z) :
  σ !! circ = Some c →
  ∃ r c',
    stabilize measurements circ i σ = (r, <[circ := c']> σ) ∧
    qregs c' = qregs c ∧ cregs c' = cregs c ∧
    qc_data c `prefix_of` qc_data c' ∧
    (has_stabilizer_registers c →
       match item measurements i with
       | Some m =>
           fits c m →
           r = Ok tt ∧ qc_data c' = qc_data c ++ round_instrs m ∧
           length (qc_data c') = length (qc_data c) + 50
       | None =>
           r = Raise IndexError ∧ qc_data c' = qc_data c ++ stabilizer_gates ∧
           length (qc_data c') = length (qc_data c) + 33
       end) ∧
    (¬ has_stabilizer_registers c →
       r = Raise CircuitError ∧ length (qc_data c') ≤ length (qc_data c) + 3).
Proof.
  intros Hc.
  destruct (stabilize_confined measurements circ i c σ)
    as (r & c' & Hrun & Hq & Hcr & Hp & _).
  rewrite (insert_id σ circ c Hc) in Hrun.
  exists r, c'. split; [done|]. split; [done|]. split; [done|]. split; [done|].
  split.
  - intros Hregs. destruct (item measurements i) as [m|] eqn:Hi.
    + intros Hfit.
      pose proof (stabilize_round measurements circ i c m σ Hregs Hi Hfit) as Hk.
      rewrite (insert_id σ circ c Hc), Hrun in Hk. injection Hk as -> Hσ.
      apply (f_equal (.!! circ)) in Hσ. rewrite !lookup_insert_eq in Hσ.
      injection Hσ as ->. split; [done|]. split; [done|]. simpl.
      rewrite length_app, round_instrs_length; [done|]. by destruct Hfit.
    + pose proof (stabilize_index_error measurements circ i c σ Hregs Hi) as Hk.
      rewrite (insert_id σ circ c Hc), Hrun in Hk. injection Hk as -> Hσ.
      apply (f_equal (.!! circ)) in Hσ. rewrite !lookup_insert_eq in Hσ.
      injection Hσ as ->. split; [done|]. split; [done|]. simpl.
      by rewrite length_app.
  - intros Hregs.
    destruct (stabilize_refused measurements circ i c σ Hregs) as (c2 & Hk & Hlen).
    rewrite (insert_id σ circ c Hc), Hrun in Hk. injection Hk as -> Hσ.
    apply (f_equal (.!! circ)) in Hσ. rewrite !lookup_insert_eq in Hσ.
    by injection Hσ as ->.
Qed.

(** The loop of [get_stabilized_circ] over one more index. *)
Lemma for_snoc {St A} (xs : list A) (x : A) (body : A → M St unit) (s : St) :
  for_ (xs ++ [x]) body s = (for_ xs body ;; body x) s.
Proof.
  revert s. induction xs as [|y xs IH]; intros s; simpl.
  - unfold bind, ret. by destruct (body x s) as [[[]|e] s'].
  - unfold bind. destruct (body y s) as [[[]|e] s']; [|done]. by rewrite IH.
Qed.

Lemma range_succ (n : Z) : (0 ≤ n)%Z → range (n + 1) = range n ++ [n].
Proof.
  intros Hn. unfold range.
  replace (Z.to_nat (n + 1)) with (S (Z.to_nat n)) by lia.
  rewrite seq_S, fmap_app. simpl. by rewrite Z2Nat.id.
Qed.

(** X7: one more round is one more call of [stabilize] on the result:
    [get_stabilized_circ(base, rounds + 1)] runs exactly as
    [get_stabilized_circ(base, rounds)] followed by
    [stabilize(circ, rounds + 1)], on every heap, failures included. *)
Theorem get_stabilized_circ_succ (σ : gmap ref QuantumCircuit) (base_circuit : ref)
    (rounds : Z) :
  (-1 ≤ rounds)%Z →
  get_stabilized_circ measurements base_circuit (rounds + 1) σ =
  (circ <- get_stabilized_circ measurements base_circuit rounds ;;
   stabilize measurements circ (rounds + 1) ;;
   ret circ) σ.
Proof.
  intros Hr. unfold get_stabilized_circ.
  rewrite (range_succ (rounds + 1)) by lia. unfold bind.
  destruct (copy base_circuit σ) as [[circ|e] σ1]; [|done].
  rewrite for_snoc. unfold bind.
  destruct (for_ _ _ σ1) as [[[]|e] σ2]; [|done].
  unfold ret. by destruct (stabilize _ _ _ σ2) as [[[]|e] σ3].
Qed.

(** X8: on a base circuit that holds the registers, the circuit
    [get_stabilized_circ] returns has 50 more instructions per round,
    and its measurements are those of the base circuit followed, round
    by round, by the four qubits of [mz] into bits 0 to 3 and the four
    of [mx] into bits 4 to 7 of that round's own register. *)
Theorem get_stabilized_circ_measurements (σ : gmap ref QuantumCircuit)
    (base_circuit : ref) (c : QuantumCircuit) (rounds : Z) :
  σ !! base_circuit = Some c →
  has_stabilizer_registers c →
  Forall (fits c) (take (Z.to_nat (rounds + 1)) measurements) →
  (rounds + 1 ≤ Z.of_nat (length measurements))%Z →
  ∃ circ σ' c',
    get_stabilized_circ measurements base_circuit rounds σ = (Ok circ, σ') ∧
    σ' !! circ = Some c' ∧
    length (qc_data c') = length (qc_data c) + 50 * Z.to_nat (rounds + 1) ∧
    measured (qc_data c') =
      measured (qc_data c) ++
      flat_map round_measures (take (Z.to_nat (rounds + 1)) measurements).
Proof.
  intros Hb Hregs Hfit Hlen. eexists _, _, _.
  split; [by apply get_stabilized_circ_ok|].
  split; [apply lookup_insert_eq|]. simpl.
  rewrite length_app, (rounds_length c), measured_app, (measured_rounds c) by done.
  rewrite length_take. split; [|done]. f_equal. lia.
Qed.

Lemma bind_add_register {B} circ reg c (σ : heap) (k : unit → M heap B) :
  creg_name reg ∉ register_names c →
  bind (add_register circ reg) k (<[circ := c]> σ) =
  k tt (<[circ := {| qregs := qregs c; cregs := cregs c ++ [reg];
                     qc_data := qc_data c |}]> σ).
Proof.
  intros Hname. unfold bind, add_register. rewrite lookup_insert_eq.
  rewrite bool_decide_false by done. by rewrite insert_insert_eq.
Qed.

(** X9: the cell that builds the readout circuit works on copies.  On a
    [base_circ] that holds the registers of the rounds and [logical],
    and no register named [logicalR]: [base_circ] and every other
    circuit stay as they were, [circ] holds the stabilization rounds
    only, and [logical_zero] is a third circuit with [circ]'s
    instructions followed by the Z-logical readout (reset, three CNOTs
    from [data[0..2]], one measurement into [logicalR]) and with
    [logicalR] as its last classical register. *)
Theorem build_logical_zero_effect (σ : gmap ref QuantumCircuit) (base_circ : ref)
    (c : QuantumCircuit) (rounds : Z) :
  σ !! base_circ = Some c →
  has_stabilizer_registers c →
  takes_readout c →
  Forall (fits c) (take (Z.to_nat (rounds + 1)) measurements) →
  (rounds + 1 ≤ Z.of_nat (length measurements))%Z →
  let stabilized :=
    extend c (flat_map round_instrs (take (Z.to_nat (rounds + 1)) measurements)) in
  ∃ circ logical_zero σ',
    build_logical_zero measurements base_circ rounds σ
      = (Ok (circ, logical_zero), σ') ∧
    NoDup [base_circ; circ; logical_zero] ∧
    σ !! circ = None ∧ σ !! logical_zero = None ∧
    (∀ l c', σ !! l = Some c' → σ' !! l = Some c') ∧
    σ' !! circ = Some stabilized ∧
    σ' !! logical_zero =
      Some {| qregs := qregs c; cregs := cregs c ++ [logical_readout];
              qc_data := qc_data stabilized ++ readout_instrs |}.
Proof.
  intros Hb (Hd & Hx & Hz) [Hl Hname] Hfit Hlen stabilized.
  unfold build_logical_zero, bind at 1.
  rewrite (get_stabilized_circ_ok measurements _ _ _ _ Hb) by done.
  fold stabilized. set (circ := fresh (dom σ)).
  set (σ1 := <[circ := stabilized]> σ).
  assert (σ1 !! circ = Some stabilized) as Hcirc by apply lookup_insert_eq.
  unfold bind at 1. rewrite (copy_known _ _ _ Hcirc).
  set (lz := fresh (dom σ1)).
  rewrite bind_add_register by done.
  unfold reset_register, cx_register, measure_register.
  change (qubits logical) with [(logical, 0)].
  change (slice logical_readout 0 1) with [(logical_readout, 0)].
  unfold broadcast_cx, broadcast_measure.
  rewrite !bool_decide_true by done.
  assert (logical_readout ∈ cregs c ++ [logical_readout]) as Hlr by set_solver.
  do 4 (rewrite bind_store by pass_check; cbv beta).
  unfold bind. rewrite store_known by pass_check. unfold ret.
  pose proof (fresh_ref_unused σ) as Hf. fold circ in Hf.
  pose proof (fresh_ref_unused σ1) as Hf1. fold lz in Hf1.
  assert (lz ≠ circ) as Hne by congruence.
  assert (σ !! lz = None) as Hlz.
  { by rewrite <-Hf1; unfold σ1; rewrite lookup_insert_ne. }
  assert (circ ≠ base_circ) by congruence.
  assert (lz ≠ base_circ) by congruence.
  eexists circ, lz, _. split; [done|].
  split.
  { apply NoDup_cons_2; [|apply NoDup_cons_2; [|apply NoDup_singleton]].
    - rewrite !elem_of_cons, elem_of_nil. intros [?|[?|[]]]; congruence.
    - rewrite elem_of_cons, elem_of_nil. intros [?|[]]; congruence. }
  split; [done|]. split; [done|]. split; [|split].
  - intros l c' Hl'. rewrite lookup_insert_ne by congruence.
    unfold σ1. rewrite lookup_insert_ne by congruence. done.
  - by rewrite lookup_insert_ne.
  - rewrite lookup_insert_eq. f_equal. rewrite !extend_extend.
    unfold extend; simpl. by rewrite <-!(assoc_L (++)).
Qed.

End RoundFacts.

(** The notebook's [base_circ] also takes the readout. *)
Lemma base_circ_takes_readout : Readout.takes_readout Circuit.base_circ.
Proof.
  split; [unfold Circuit.base_circ; simpl; set_solver|].
  unfold Circuit.register_names, Circuit.base_circ.
  rewrite notebook_measurements. simpl.
  rewrite !elem_of_cons, elem_of_nil. intros H.
  repeat (destruct H as [H|H]; [discriminate H|]). done.
Qed.

(** The notebook's heap and registers; the index [-1] denotes the last
    measurement register. *)
Lemma stabilize_effect_notebook :
  ∃ c',
    Circuit.stabilize Circuit.measurements 1%positive (-1) Circuit.notebook_heap
      = (Ok tt, <[1%positive := c']> Circuit.notebook_heap) ∧
    Circuit.qregs c' = Circuit.qregs Circuit.base_circ ∧
    Circuit.cregs c' = Circuit.cregs Circuit.base_circ ∧
    Circuit.qc_data c' =
      Circuit.round_instrs (Circuit.ClassicalRegister 8 "c3") ∧
    length (Circuit.qc_data c') = 50.
Proof.
  destruct (stabilize_effect Circuit.measurements Circuit.notebook_heap 1%positive
              Circuit.base_circ (-1) eq_refl)
    as (r & c' & Hrun & Hq & Hc & _ & Hok & _).
  destruct base_circ_registers as [Hregs Hfit].
  specialize (Hok Hregs). simpl in Hok.
  destruct Hok as (-> & Hd & Hl).
  { rewrite Forall_forall in Hfit. apply Hfit. rewrite notebook_measurements.
    set_solver. }
  by exists c'.
Defined.

Lemma get_stabilized_circ_succ_notebook :
  Circuit.get_stabilized_circ Circuit.measurements 1%positive (1 + 1)
    Circuit.notebook_heap =
  (circ <- Circuit.get_stabilized_circ Circuit.measurements 1%positive 1 ;;
   Circuit.stabilize Circuit.measurements circ (1 + 1) ;;
   ret circ) Circuit.notebook_heap.
Proof.
  apply (get_stabilized_circ_succ Circuit.measurements Circuit.notebook_heap
           1%positive 1).
  lia.
Defined.

Lemma get_stabilized_circ_measurements_notebook :
  ∃ circ σ' c',
    Circuit.get_stabilized_circ Circuit.measurements 1%positive Circuit.rounds
      Circuit.notebook_heap = (Ok circ, σ') ∧
    σ' !! circ = Some c' ∧
    length (Circuit.qc_data c') = 150 ∧
    Readout.measured (Circuit.qc_data c') =
      flat_map Readout.round_measures Circuit.measurements.
Proof.
  destruct base_circ_registers as [Hregs Hfit].
  apply (get_stabilized_circ_measurements Circuit.measurements
           Circuit.notebook_heap 1%positive Circuit.base_circ Circuit.rounds).
  - reflexivity.
  - exact Hregs.
  - exact Hfit.
  - vm_compute. discriminate.
Defined.

Lemma build_logical_zero_effect_notebook :
  ∃ circ logical_zero σ',
    Readout.build_logical_zero Circuit.measurements 1%positive Circuit.rounds
      Circuit.notebook_heap = (Ok (circ, logical_zero), σ') ∧
    NoDup [1%positive; circ; logical_zero] ∧
    Circuit.notebook_heap !! circ = None ∧
    Circuit.notebook_heap !! logical_zero = None ∧
    (∀ l c', Circuit.notebook_heap !! l = Some c' → σ' !! l = Some c') ∧
    σ' !! circ =
      Some (Circuit.extend Circuit.base_circ
              (flat_map Circuit.round_instrs Circuit.measurements)) ∧
    σ' !! logical_zero =
      Some {| Circuit.qregs := Circuit.qregs Circuit.base_circ;
              Circuit.cregs := Circuit.measurements ++ [Readout.logical_readout];
              Circuit.qc_data :=
                flat_map Circuit.round_instrs Circuit.measurements ++
                Readout.readout_instrs |}.
Proof.
  destruct base_circ_registers as [Hregs Hfit].
  apply (build_logical_zero_effect Circuit.measurements Circuit.notebook_heap
           1%positive Circuit.base_circ Circuit.rounds).
  - reflexivity.
  - exact Hregs.
  - exact base_circ_takes_readout.
  - exact Hfit.
  - vm_compute. discriminate.
Defined.

(** Run a second time on its own result the cell fails: the copy
    already holds a register named [logicalR]. *)
Example build_logical_zero_twice :
  let first := Readout.build_logical_zero Circuit.measurements 1%positive (-1)
                 Circuit.notebook_heap in
  match first.1 with
  | Ok (_, logical_zero) =>
      (Readout.build_logical_zero Circuit.measurements logical_zero (-1) first.2).1
      = Raise CircuitError
  | Raise _ => False
  end.
Proof. vm_compute. reflexivity. Qed.

(** ** The noise sweep *)

Section SweepFacts.

Import Sweep.

Context {Rate NoiseModel Counts LogicalRate W : Type}.
Variable get_noise_no_meas : Rate → NoiseModel.
Variable execute : NoiseModel → M W Counts.
Variable logical_error_rate : Counts → Z → M W LogicalRate.

Abbreviation St := (St (LogicalRate:=LogicalRate) (W:=W)).
Abbreviation sweep_body :=
  (λ rate : Rate,
     results <- lift (execute (get_noise_no_meas rate)) ;;
     r <- lift (logical_error_rate results 0) ;;
     append_logical r).
Abbreviation swept := (swept get_noise_no_meas execute logical_error_rate).
Abbreviation fails := (fails get_noise_no_meas execute logical_error_rate).

(** The loop appends the rate of each level it gets through, and stops
    at the first level that fails. *)
Lemma sweep_loop noise : ∀ (s : St) r s',
  for_ noise sweep_body s = (r, s') →
  ∃ k rs w,
    logical s' = logical s ++ rs ∧
    swept (world s) (take k noise) rs w ∧
    match r with
    | Ok _ => k = length noise ∧ world s' = w
    | Raise e => ∃ rate, noise !! k = Some rate ∧ fails w rate e (world s')
    end.
Proof.
  induction noise as [|rate noise IH]; intros s r s' Hrun; simpl in Hrun.
  - injection Hrun as <- <-. exists 0, [], (world s). by rewrite app_nil_r.
  - unfold bind at 1 2, lift at 1 in Hrun.
    destruct (execute _ (world s)) as [[results|e] w1] eqn:Hex; simpl in Hrun;
      cycle 1.
    { injection Hrun as <- <-. exists 0, [], (world s). rewrite app_nil_r. simpl.
      split; [done|]. split; [done|]. exists rate. split; [done|]. by left. }
    unfold bind at 1, lift at 1 in Hrun. simpl in Hrun.
    destruct (logical_error_rate results 0 w1) as [[x|e] w2] eqn:Hrate;
      simpl in Hrun; cycle 1.
    { injection Hrun as <- <-. exists 0, [], (world s). rewrite app_nil_r. simpl.
      split; [done|]. split; [done|]. exists rate. split; [done|].
      right. by exists results, w1. }
    apply IH in Hrun as (k & rs & w & Hlog & Hsw & Hend). simpl in Hlog, Hsw.
    exists (S k), (x :: rs), w. split; [by rewrite Hlog, <-(assoc_L (++))|].
    split.
    + simpl. by exists results, w1, w2.
    + destruct r as [[]|e]; simpl; [|done]. destruct Hend as [-> ->]. done.
Qed.

(** The rates of a sweep are as many as its levels. *)
Lemma swept_length noise : ∀ w rs w',
  swept w noise rs w' → length rs = length noise.
Proof.
  induction noise as [|rate noise IH]; intros w [|r rs] w' Hsw; simpl in *;
    try done.
  destruct Hsw as (results & w1 & w2 & _ & _ & Hsw). f_equal. by eapply IH.
Qed.

(** X10: the sweep cell starts [logical] afresh, whatever it held
    before.  When the cell finishes, [logical] holds one logical error
    rate per noise level, in the order of [noise], each computed by the
    tool (against the expected value 0) from shots run under
    [get_noise_no_meas] of that level.  When the shots or the tool raise
    at some level, the cell stops there with that exception, and
    [logical] holds the rates of all the levels before it, and only
    those. *)
Theorem sweep_parallel (noise : list Rate) (s : St) :
  let run := sweep get_noise_no_meas execute logical_error_rate noise s in
  match run.1 with
  | Ok _ => swept (world s) noise (logical run.2) (world run.2)
  | Raise e =>
      ∃ k rate w,
        noise !! k = Some rate ∧
        swept (world s) (take k noise) (logical run.2) w ∧
        fails w rate e (world run.2)
  end.
Proof.
  intros run.
  destruct (for_ noise sweep_body {| world := world s; logical := [] |})
    as [r s'] eqn:Hrun.
  assert (run = (r, s')) as -> by done.
  apply sweep_loop in Hrun as (k & rs & w & Hlog & Hsw & Hend).
  simpl in Hlog, Hsw. simpl. rewrite Hlog. destruct r as [[]|e].
  - destruct Hend as [-> ->]. by rewrite firstn_all in Hsw.
  - destruct Hend as (rate & Hk & Hfail). by exists k, rate, w.
Qed.

End SweepFacts.
